(** * weed/filer/reader_at.go: the chunked random-access reader

    A shallow embedding of [LookupFn], [NewChunkReaderAtFromClient],
    [ReadAt], [doReadAt], [readFromWholeChunkData], [readOneWholeChunk]
    and [doFetchFullChunkData], with the properties of the read path. *)

From Stdlib Require Import ZArith Lia List Permutation Sorted.
From stdpp Require Import base gmap strings list.
Import ListNotations.
Local Open Scope Z_scope.
Set Warnings "-clear-no-such-hyp".

(** ** Machine integers

    [int64] values are integers of [Z] kept in the signed 64-bit range by
    [Int64.wrap]; Go's [int] is taken to be 64 bits wide as well, so the
    conversions [int(...)] and [int64(...)] between the two are the
    identity and a conversion from [uint64] is [Int64.wrap]. *)
Module Int64.

Definition half : Z := 2 ^ 63.
Definition modulus : Z := 2 ^ 64.
Definition max_int : Z := half - 1.
Definition min_int : Z := - half.

Definition wrap (z : Z) : Z := (z + half) mod modulus - half.

Definition add (a b : Z) : Z := wrap (a + b).
Definition sub (a b : Z) : Z := wrap (a - b).

Definition in_range (z : Z) : Prop := min_int <= z <= max_int.

End Int64.

(** ** Byte slices

    A [[]byte] is modelled by the list of its elements, its capacity being
    its length.  A slice expression [s[lo:hi]] panics unless
    [0 <= lo <= hi <= len(s)]. *)
Abbreviation bytes := (list Byte.byte).

Definition zero_byte : Byte.byte := Byte.x00.

Definition len {A} (s : list A) : Z := Z.of_nat (length s).

Definition slice_ok {A} (s : list A) (lo hi : Z) : bool :=
  (0 <=? lo) && (lo <=? hi) && (hi <=? len s).

Definition slice {A} (s : list A) (lo hi : Z) : list A :=
  take (Z.to_nat (hi - lo)) (drop (Z.to_nat lo) s).

(** [copy(p[lo:hi], src)]: the elements of [src] that fit are written into
    [p] from index [lo] on; the number of elements copied is returned. *)
Definition copy_into {A} (p : list A) (lo hi : Z) (src : list A) : list A * Z :=
  let copied := Z.min (hi - lo) (len src) in
  (take (Z.to_nat lo) p ++ take (Z.to_nat copied) src
     ++ drop (Z.to_nat (lo + copied)) p,
   copied).

(** ** Data model *)

(** Modelled from the spec: the struct [ChunkView] is declared outside
    reader_at.go; its fields are those the reader uses, with the data model's
    meaning: [FileId] the chunk identifier, [Offset] the start inside the
    chunk's own bytes, [Size] the visible length, [LogicOffset] the position
    in the file, [ChunkSize] the size of the whole chunk. [Offset] and
    [LogicOffset] are [int64], [Size] and [ChunkSize] are [uint64]. *)
Record ChunkView := mkChunkView {
  FileId : string;
  Offset : Z;
  Size : Z;
  LogicOffset : Z;
  ChunkSize : Z;
  CipherKey : bytes;
  IsGzipped : bool
}.

(** Modelled from the spec: a storage-node location ([filer_pb.Location])
    and the locations of a volume ([filer_pb.Locations]), declared outside
    reader_at.go. *)
Record Location := mkLocation { Url : string; PublicUrl : string }.

Record Locations := mkLocations { locations_list : list Location }.

(** Go's [error] values met on the read path: [io.EOF], and the errors of
    the collaborators. Modelled from the spec: the error kinds of the
    resolver and of the fetcher (location-unresolvable, fetch-failure),
    whose code is outside reader_at.go. *)
Inductive fetch_error :=
| LocationUnresolvable (msg : string)
| FetchFailure (msg : string).

Inductive error :=
| io_EOF
| Failed (e : fetch_error).

(** The ways the read path can panic. A source slice out of range names
    the view being read and the length of the bytes obtained for it. *)
Inductive panic :=
| NilChunkCache
| NilLocations
| IndexOutOfRange
| DstSliceOutOfRange
| SrcSliceOutOfRange (chunk : ChunkView) (buffer_len : Z).

Inductive outcome (A : Type) :=
| Returns (a : A)
| Panics (why : panic).
Arguments Returns {A} a.
Arguments Panics {A} why.

(** Modelled from the spec: the content cache, the interface
    [chunk_cache.ChunkCache] declared outside reader_at.go: get and set by
    chunk identifier, with an eviction policy left open; a lookup may
    change the cache (recency bookkeeping), and a miss is the nil slice. *)
Class ChunkCache (C : Type) := {
  GetChunk : C -> string -> Z -> option bytes * C;
  SetChunk : C -> string -> bytes -> C
}.

(** What happens outside the reader is recorded as a trace. *)
Inductive event :=
| EvLookupVolume (vid : string)
| EvWireFetch (fileId : string)
| EvCoordinator (fileId : string)
| EvReadAhead (fileId : string).

Definition is_lookup (e : event) : bool :=
  match e with EvLookupVolume _ => true | _ => false end.
Definition is_wire_fetch (e : event) : bool :=
  match e with EvWireFetch _ => true | _ => false end.
Definition is_coordinator (e : event) : bool :=
  match e with EvCoordinator _ => true | _ => false end.

Definition count_events (f : event -> bool) (t : list event) : nat :=
  length (filter (fun e => f e = true) t).

(** ** The collaborators *)

(** Modelled from the spec: the interface [filer_pb.FilerClient], declared
    outside reader_at.go: [LookupVolume k vid] is the answer of the [k]-th
    lookup-by-volume call made through [WithFilerClient] (an error, or the
    response's [LocationsMap]), [AdjustedUrl] the address adjustment. *)
Record FilerClient := mkFilerClient {
  LookupVolume : nat -> string -> fetch_error + gmap string Locations;
  AdjustedUrl : Location -> string
}.

(** Modelled from the spec: the retry policy of [util.Retry], which is
    outside reader_at.go: a bounded number of further attempts, made while
    the job fails with an error the policy retries. *)
Record RetryPolicy := mkRetryPolicy {
  retries : nat;
  retryable : fetch_error -> bool
}.

Fixpoint retry_loop {S : Type} (policy : RetryPolicy) (attempts : nat)
    (job : S -> option fetch_error * S) (s : S) : option fetch_error * S :=
  match job s with
  | (None, s') => (None, s')
  | (Some err, s') =>
      match attempts with
      | O => (Some err, s')
      | Datatypes.S k =>
          if retryable policy err then retry_loop policy k job s'
          else (Some err, s')
      end
  end.

Definition Retry {S : Type} (policy : RetryPolicy)
    (job : S -> option fetch_error * S) (s : S) : option fetch_error * S :=
  retry_loop policy (retries policy) job s.

(** The source of [rand.Intn]. *)
Record RandSource (Rng : Type) := mkRandSource {
  Intn : Rng -> Z -> Z * Rng
}.
Arguments Intn {Rng} _ _ _.

(** Modelled from the spec: the wire-fetch routine behind [fetchChunk],
    outside reader_at.go: [WireFetch k urls cipherKey isGzipped] is the
    answer of the [k]-th wire fetch. *)
Definition WireFetch := nat -> list string -> bytes -> bool -> fetch_error + bytes.

(** The world outside the reader: the trace of what was done, and the state
    of the random source. *)
Record World (Rng : Type) := mkWorld {
  trace : list event;
  rng : Rng
}.
Arguments mkWorld {Rng} _ _.
Arguments trace {Rng} _.
Arguments rng {Rng} _.

Definition log {Rng} (e : event) (w : World Rng) : World Rng :=
  mkWorld (trace w ++ [e]) (rng w).

Definition lookups {Rng} (w : World Rng) : nat := count_events is_lookup (trace w).
Definition wire_fetches {Rng} (w : World Rng) : nat := count_events is_wire_fetch (trace w).
Definition coordinator_calls {Rng} (w : World Rng) : nat :=
  count_events is_coordinator (trace w).

(** ** The shuffle of the candidate list

    [swap t i j] is [t[i], t[j] = t[j], t[i]], which panics when an index
    is out of range; the loop
    [for i := len(t)-1; i > 0; i-- { j := rand.Intn(i+1); swap }] is
    [shuffle_loop] started at [len(t) - 1]. *)
Definition swap {A} (t : list A) (i j : nat) : option (list A) :=
  match t !! i, t !! j with
  | Some x, Some y => Some (<[j:=x]> (<[i:=y]> t))
  | _, _ => None
  end.

Fixpoint shuffle_loop {Rng A} (rand : RandSource Rng) (i : nat) (g : Rng)
    (t : list A) : outcome (list A * Rng) :=
  match i with
  | O => Returns (t, g)
  | Datatypes.S i' =>
      let '(j, g') := Intn rand g (Z.of_nat i + 1) in
      if j <? 0 then Panics IndexOutOfRange
      else match swap t i (Z.to_nat j) with
           | Some t' => shuffle_loop rand i' g' t'
           | None => Panics IndexOutOfRange
           end
  end.

Definition shuffle {Rng A} (rand : RandSource Rng) (g : Rng) (t : list A)
    : outcome (list A * Rng) :=
  shuffle_loop rand (length t - 1)%nat g t.

(** The same loop run on given draws [js] instead of a random source: the
    first element of [js] is the value drawn at index [i], the next one the
    value drawn at [i-1], and so on. *)
Fixpoint shuffle_draws {A} (i : nat) (js : list nat) (t : list A) : list A :=
  match i, js with
  | Datatypes.S i', j :: js' =>
      match swap t i j with
      | Some t' => shuffle_draws i' js' t'
      | None => t
      end
  | _, _ => t
  end.

(** [valid_draws i js]: [js] are values [rand.Intn] can return in the loop
    started at index [i]: one draw per index [i, i-1, ..., 1], the draw at
    index [k] being in [0, k+1). *)
Fixpoint valid_draws (i : nat) (js : list nat) : Prop :=
  match i, js with
  | O, [] => True
  | Datatypes.S i', j :: js' => (j <= i)%nat /\ valid_draws i' js'
  | _, _ => False
  end.

(** The draws the loop takes from the random source. *)
Fixpoint draws {Rng} (rand : RandSource Rng) (i : nat) (g : Rng) : list nat :=
  match i with
  | O => []
  | Datatypes.S i' =>
      let '(j, g') := Intn rand g (Z.of_nat i + 1) in
      Z.to_nat j :: draws rand i' g'
  end.

(** The contract of [rand.Intn]: a value in [0, n). *)
Definition Intn_in_range {Rng} (rand : RandSource Rng) : Prop :=
  forall g n, 0 < n -> 0 <= fst (Intn rand g n) < n.

(** ** The location resolver: [LookupFn]

    [LookupFn(filerClient)] allocates [vidCache] and returns a closure; the
    closure's captured state is the map [vidCache], so a resolver is its
    [vidCache] and [LookupFn] starts it empty. The locks only order
    concurrent accesses and have no sequential effect. *)
Abbreviation VidCache := (gmap string Locations).

Definition LookupFn_new : VidCache := ∅.

Section Resolver.
Context {Rng : Type} (rand : RandSource Rng).
Context (VolumeId : string -> string) (policy : RetryPolicy).
Context (filerClient : FilerClient).

(** The variables the retried closure works on: the captured [locations],
    the cache and the world. *)
Record lookup_state := mkLookupState {
  ls_locations : option Locations;
  ls_cache : VidCache;
  ls_world : World Rng
}.

(** The job given to [util.Retry] (lines 46-67). *)
Definition lookup_job (fileId vid : string) (s : lookup_state)
    : option fetch_error * lookup_state :=
  let w' := log (EvLookupVolume vid) (ls_world s) in
  match LookupVolume filerClient (lookups (ls_world s)) vid with
  | inl err => (Some err, mkLookupState (ls_locations s) (ls_cache s) w')
  | inr LocationsMap =>
      let locations := LocationsMap !! vid in
      match locations with
      | Some l =>
          if (length (locations_list l) =? 0)%nat
          then (Some (LocationUnresolvable ("failed to locate " +:+ fileId)),
                mkLookupState locations (ls_cache s) w')
          else (None, mkLookupState locations (<[vid:=l]> (ls_cache s)) w')
      | None =>
          (Some (LocationUnresolvable ("failed to locate " +:+ fileId)),
           mkLookupState locations (ls_cache s) w')
      end
  end.

Definition targetUrl (fileId : string) (loc : Location) : string :=
  "http://" +:+ AdjustedUrl filerClient loc +:+ "/" +:+ fileId.

(** The closure returned by [LookupFn] (lines 39-86), on the state
    [vidCache] it captured. *)
Definition lookupFileId (fileId : string) (vidCache : VidCache) (w : World Rng)
    : outcome (list string * option fetch_error * VidCache * World Rng) :=
  let vid := VolumeId fileId in
  let '(err, s) :=
    match vidCache !! vid with
    | Some l => (None, mkLookupState (Some l) vidCache w)
    | None => Retry policy (lookup_job fileId vid) (mkLookupState None vidCache w)
    end in
  match err with
  | Some e => Returns ([], Some e, ls_cache s, ls_world s)
  | None =>
      match ls_locations s with
      | None => Panics NilLocations
      | Some l =>
          let targetUrls := map (targetUrl fileId) (locations_list l) in
          match shuffle rand (rng (ls_world s)) targetUrls with
          | Panics why => Panics why
          | Returns (shuffled, g') =>
              Returns (shuffled, None, ls_cache s, mkWorld (trace (ls_world s)) g')
          end
      end
  end.

(** Modelled from the spec: [fetchChunk], outside reader_at.go: resolve
    the candidate URLs, propagate a resolution error, else call the
    wire-fetch routine with the URLs and the view's cipher and compression
    flags. *)
Definition fetchChunk (wire : WireFetch) (fileId : string) (cipherKey : bytes)
    (isGzipped : bool) (vidCache : VidCache) (w : World Rng)
    : outcome (bytes * option fetch_error * VidCache * World Rng) :=
  match lookupFileId fileId vidCache w with
  | Panics why => Panics why
  | Returns (_, Some e, vc, w') => Returns ([], Some e, vc, w')
  | Returns (urls, None, vc, w') =>
      let w'' := log (EvWireFetch fileId) w' in
      match wire (wire_fetches w') urls cipherKey isGzipped with
      | inl e => Returns ([], Some e, vc, w'')
      | inr data => Returns (data, None, vc, w'')
      end
  end.

End Resolver.
Arguments lookup_state Rng : clear implicits.
Arguments mkLookupState {Rng} _ _ _.
Arguments ls_locations {Rng} _.
Arguments ls_cache {Rng} _.
Arguments ls_world {Rng} _.

(** ** The reader: [ChunkReadAt]

    [lookupFileId] is the closure built by [LookupFn], kept as the
    [vidCache] it captured. [chunkCache] is [None] for the nil interface.
    The unused [masterClient], and [readerLock] and [fetchGroup], which
    have no effect when one goroutine calls the reader while no other call
    for the same chunk is in flight, are left out. *)
Record ChunkReadAt (C : Type) := mkChunkReadAt {
  chunkViews : list ChunkView;
  lookupFileId_state : VidCache;
  fileSize : Z;
  lastChunkFileId : string;
  lastChunkData : bytes;
  chunkCache : option C
}.
Arguments mkChunkReadAt {C} _ _ _ _ _ _.
Arguments chunkViews {C} _.
Arguments lookupFileId_state {C} _.
Arguments fileSize {C} _.
Arguments lastChunkFileId {C} _.
Arguments lastChunkData {C} _.
Arguments chunkCache {C} _.

(** [NewChunkReaderAtFromClient] (lines 89-97): the other fields have
    their zero values, and [LookupFn] is called anew for this reader. *)
Definition NewChunkReaderAtFromClient {C} (chunkViews : list ChunkView)
    (chunkCache : option C) (fileSize : Z) : ChunkReadAt C :=
  mkChunkReadAt chunkViews LookupFn_new fileSize "" [] chunkCache.

(** Computations of the read path: they act on the reader and the world,
    and return or panic. *)
Definition M (C Rng A : Type) : Type :=
  ChunkReadAt C -> World Rng -> outcome (A * ChunkReadAt C * World Rng).

Definition ret {C Rng A} (a : A) : M C Rng A := fun c w => Returns (a, c, w).

Definition bind {C Rng A B} (m : M C Rng A) (f : A -> M C Rng B) : M C Rng B :=
  fun c w =>
    match m c w with
    | Returns (a, c', w') => f a c' w'
    | Panics why => Panics why
    end.

Definition throw {C Rng A} (why : panic) : M C Rng A := fun _ _ => Panics why.

Definition get_reader {C Rng} : M C Rng (ChunkReadAt C) := fun c w => Returns (c, c, w).

Definition put_reader {C Rng} (c : ChunkReadAt C) : M C Rng unit :=
  fun _ w => Returns (tt, c, w).

Definition emit {C Rng} (e : event) : M C Rng unit :=
  fun c w => Returns (tt, c, log e w).

Declare Scope reader_scope.
Delimit Scope reader_scope with reader.
Notation "x <- m ;; k" := (bind m (fun x => k))
  (at level 100, m at next level, right associativity) : reader_scope.
Notation "m ;;; k" := (bind m (fun _ => k))
  (at level 100, right associativity) : reader_scope.

Definition set_chunkCache {C} (c : ChunkReadAt C) (cache : C) : ChunkReadAt C :=
  mkChunkReadAt (chunkViews c) (lookupFileId_state c) (fileSize c)
    (lastChunkFileId c) (lastChunkData c) (Some cache).

Definition set_lookupFileId_state {C} (c : ChunkReadAt C) (vc : VidCache)
    : ChunkReadAt C :=
  mkChunkReadAt (chunkViews c) vc (fileSize c)
    (lastChunkFileId c) (lastChunkData c) (chunkCache c).

Definition set_lastChunk {C} (c : ChunkReadAt C) (fileId : string) (data : bytes)
    : ChunkReadAt C :=
  mkChunkReadAt (chunkViews c) (lookupFileId_state c) (fileSize c)
    fileId data (chunkCache c).

Section Reader.
Context {C : Type} `{!ChunkCache C} {Rng : Type} (rand : RandSource Rng).
Context (VolumeId : string -> string) (policy : RetryPolicy).
Context (filerClient : FilerClient) (wire : WireFetch).
Local Open Scope reader_scope.

(** [doFetchFullChunkData] (lines 214-224). *)
Definition doFetchFullChunkData (chunkView : ChunkView)
    : M C Rng (bytes * option fetch_error) :=
  fun c w =>
    match fetchChunk rand VolumeId policy filerClient wire (FileId chunkView)
            (CipherKey chunkView) (IsGzipped chunkView) (lookupFileId_state c) w with
    | Panics why => Panics why
    | Returns (data, err, vc, w') =>
        Returns ((data, err), set_lookupFileId_state c vc, w')
    end.

(** [readOneWholeChunk] (lines 191-212): the function given to
    [fetchGroup.Do] is run by the caller. The method calls on
    [c.chunkCache] panic when the interface is nil. *)
Definition cache_GetChunk (fileId : string) (minSize : Z) : M C Rng (option bytes) :=
  fun c w =>
    match chunkCache c with
    | None => Panics NilChunkCache
    | Some cache =>
        let '(data, cache') := GetChunk cache fileId minSize in
        Returns (data, set_chunkCache c cache', w)
    end.

Definition cache_SetChunk (fileId : string) (data : bytes) : M C Rng unit :=
  fun c w =>
    match chunkCache c with
    | None => Panics NilChunkCache
    | Some cache => Returns (tt, set_chunkCache c (SetChunk cache fileId data), w)
    end.

Definition readOneWholeChunk (chunkView : ChunkView)
    : M C Rng (bytes * option fetch_error) :=
  emit (EvCoordinator (FileId chunkView)) ;;;
  data <- cache_GetChunk (FileId chunkView) (ChunkSize chunkView) ;;
  match data with
  | Some data => ret (data, None)
  | None =>
      r <- doFetchFullChunkData chunkView ;;
      let '(data, err) := r in
      match err with
      | Some e => ret (data, Some e)
      | None =>
          cache_SetChunk (FileId chunkView) data ;;;
          ret (data, None)
      end
  end.

(** [readFromWholeChunkData] (lines 165-189). [go c.readOneWholeChunk(...)]
    starts a goroutine: the launch is recorded, the goroutine's own steps
    are not part of the call. *)
Fixpoint launch_readAhead (nextChunkViews : list (option ChunkView)) : M C Rng unit :=
  match nextChunkViews with
  | [] => ret tt
  | nextChunkView :: rest =>
      c <- get_reader ;;
      match chunkCache c, nextChunkView with
      | Some _, Some next =>
          emit (EvReadAhead (FileId next)) ;;; launch_readAhead rest
      | _, _ => launch_readAhead rest
      end
  end.

Definition readFromWholeChunkData (chunkView : ChunkView)
    (nextChunkViews : list (option ChunkView))
    : M C Rng (bytes * option fetch_error) :=
  c <- get_reader ;;
  if String.eqb (lastChunkFileId c) (FileId chunkView)
  then ret (lastChunkData c, None)
  else
    r <- readOneWholeChunk chunkView ;;
    let '(v, doErr) := r in
    match doErr with
    | Some e => ret ([], Some e)
    | None =>
        c <- get_reader ;;
        put_reader (set_lastChunk c (FileId chunkView) v) ;;;
        launch_readAhead nextChunkViews ;;;
        ret (v, None)
    end.

(** [doReadAt] (lines 108-163). The loop variables are kept in a cursor;
    [p] is the output buffer as written so far. *)
Record cursor := mkCursor {
  cur_n : Z;
  cur_startOffset : Z;
  cur_remaining : Z;
  cur_p : bytes
}.

(** How the loop over the chunk views is left: at its end or by [break],
    or by the [return] of line 140. *)
Inductive loop_exit :=
| LoopDone (k : cursor)
| LoopReturn (k : cursor) (err : fetch_error).

(** How one iteration ends: it goes on to the next view, or leaves the
    loop. *)
Inductive iter_exit :=
| Next (k : cursor)
| Exit (e : loop_exit).

(** Lines 122-126: the gap before the view. *)
Definition gap_fill (chunk : ChunkView) (k : cursor) : cursor :=
  let gap := Int64.sub (LogicOffset chunk) (cur_startOffset k) in
  mkCursor (Int64.add (cur_n k) (Z.min gap (cur_remaining k)))
    (LogicOffset chunk) (Int64.sub (cur_remaining k) gap) (cur_p k).

(** Lines 142-145: the copy out of the chunk's bytes. *)
Definition copy_chunk (offset : Z) (chunk : ChunkView) (chunkStart chunkStop : Z)
    (buffer : bytes) (k : cursor) : M C Rng cursor :=
  let bufferOffset :=
    Int64.add (Int64.sub chunkStart (LogicOffset chunk)) (Offset chunk) in
  let lo := Int64.sub (cur_startOffset k) offset in
  let hi :=
    Int64.sub (Int64.add (Int64.sub chunkStop chunkStart) (cur_startOffset k)) offset in
  let bhi := Int64.sub (Int64.add bufferOffset chunkStop) chunkStart in
  if negb (slice_ok (cur_p k) lo hi) then throw DstSliceOutOfRange
  else if negb (slice_ok buffer bufferOffset bhi)
  then throw (SrcSliceOutOfRange chunk (len buffer))
  else
    let '(p', copied) := copy_into (cur_p k) lo hi (slice buffer bufferOffset bhi) in
    ret (mkCursor (Int64.add (cur_n k) copied)
           (Int64.add (cur_startOffset k) copied)
           (Int64.sub (cur_remaining k) copied) p').

(** Line 132: the part of the window the view covers. *)
Definition chunkStart (chunk : ChunkView) (k : cursor) : Z :=
  Z.max (LogicOffset chunk) (cur_startOffset k).

Definition chunkStop (chunk : ChunkView) (k : cursor) : Z :=
  Z.min (Int64.add (LogicOffset chunk) (Int64.wrap (Size chunk)))
        (Int64.add (cur_startOffset k) (cur_remaining k)).

(** Lines 133-145: the view once the gap before it is dealt with. *)
Definition read_view (offset : Z) (chunk : ChunkView) (nextChunk : option ChunkView)
    (k : cursor) : M C Rng iter_exit :=
  if chunkStart chunk k >=? chunkStop chunk k then ret (Next k)
  else
    r <- readFromWholeChunkData chunk [nextChunk] ;;
    let '(buffer, err) := r in
    match err with
    | Some e => ret (Exit (LoopReturn k e))
    | None =>
        k' <- copy_chunk offset chunk (chunkStart chunk k) (chunkStop chunk k) buffer k ;;
        ret (Next k')
    end.

(** Lines 114-146: the body of the loop for the view [chunk], followed in
    the list by [nextChunk]. *)
Definition visit (offset : Z) (chunk : ChunkView) (nextChunk : option ChunkView)
    (k : cursor) : M C Rng iter_exit :=
  if cur_remaining k <=? 0 then ret (Exit (LoopDone k))
  else if cur_startOffset k <? LogicOffset chunk then
    let k := gap_fill chunk k in
    if cur_remaining k <=? 0 then ret (Exit (LoopDone k))
    else read_view offset chunk nextChunk k
  else read_view offset chunk nextChunk k.

(** Lines 113-146: the loop, [views] being the views not yet visited. *)
Fixpoint walk (offset : Z) (views : list ChunkView) (k : cursor)
    : M C Rng loop_exit :=
  match views with
  | [] => ret (LoopDone k)
  | chunk :: rest =>
      r <- visit offset chunk (head rest) k ;;
      match r with
      | Next k' => walk offset rest k'
      | Exit e => ret e
      end
  end.

(** The iterations over [views], the view after them being [following]:
    [Next] when the loop goes on after the last of them. *)
Fixpoint iterate (offset : Z) (views : list ChunkView) (following : option ChunkView)
    (k : cursor) : M C Rng iter_exit :=
  match views with
  | [] => ret (Next k)
  | chunk :: rest =>
      r <- visit offset chunk (match rest with [] => following | next :: _ => Some next end) k ;;
      match r with
      | Next k' => iterate offset rest following k'
      | Exit e => ret (Exit e)
      end
  end.

(** The value of [bytesWritten] and of the status returned. *)
Definition doReadAt (p : bytes) (offset : Z) : M C Rng (bytes * Z * option error) :=
  c <- get_reader ;;
  r <- walk offset (chunkViews c) (mkCursor 0 offset (len p) p) ;;
  match r with
  | LoopReturn k e => ret (cur_p k, cur_n k, Some (Failed e))
  | LoopDone k =>
      let n :=
        if (cur_remaining k >? 0) && (fileSize c >? cur_startOffset k)
        then Int64.add (cur_n k)
               (Z.min (cur_remaining k) (Int64.sub (fileSize c) (cur_startOffset k)))
        else cur_n k in
      let err :=
        if Int64.add offset (len p) >=? fileSize c then Some io_EOF else None in
      ret (cur_p k, n, err)
  end.

(** [ReadAt] (lines 99-106): [n] is zero when the arguments are evaluated. *)
Definition ReadAt (p : bytes) (offset : Z) : M C Rng (bytes * Z * option error) :=
  doReadAt (drop (Z.to_nat 0) p) (Int64.add offset 0).

End Reader.

(** ** Concrete collaborators, to run the model *)

(** A content cache that keeps every chunk it is given. *)
#[export] Instance MapCache : ChunkCache (gmap string bytes) := {
  GetChunk c fileId _ := (c !! fileId, c);
  SetChunk c fileId data := <[fileId:=data]> c
}.

(** A random source that counts its calls. *)
Definition counter_rand : RandSource nat :=
  mkRandSource nat (fun g n => (Z.of_nat g mod n, Datatypes.S g)).

Definition no_retry : RetryPolicy := mkRetryPolicy 0 (fun _ => false).

Definition node (url : string) : Location := mkLocation url url.

(** Every volume is on the two nodes [n1] and [n2]. *)
Definition two_nodes : FilerClient :=
  mkFilerClient
    (fun _ vid => inr {[ vid := mkLocations [node "n1"; node "n2"] ]})
    Url.

(** No volume is found anywhere. *)
Definition no_nodes : FilerClient :=
  mkFilerClient (fun _ _ => inr ∅) Url.

Definition whole_id (fileId : string) : string := fileId.

Definition byte_a : Byte.byte := Byte.x61.
Definition byte_b : Byte.byte := Byte.x62.

(** Every wire fetch answers 200 bytes [a]. *)
Definition wire_a : WireFetch := fun _ _ _ _ => inr (replicate 200 byte_a).

(** The first wire fetch answers 200 bytes [a], the later ones fail. *)
Definition wire_once : WireFetch :=
  fun k _ _ _ =>
    match k with
    | O => inr (replicate 200 byte_a)
    | _ => inl (FetchFailure "unreachable")
    end.

(** Every wire fetch fails. *)
Definition wire_down : WireFetch := fun _ _ _ _ => inl (FetchFailure "unreachable").

(** Every wire fetch answers 50 bytes only. *)
Definition wire_short : WireFetch := fun _ _ _ _ => inr (replicate 50 byte_a).

Definition world0 : World nat := mkWorld [] O.

Definition view (fileId : string) (logicOffset size : Z) : ChunkView :=
  mkChunkView fileId 0 size logicOffset size [] false.

(** The file of the gap example: views over [0,100) and [150,200). *)
Definition gap_views : list ChunkView := [view "3,01" 0 100; view "4,02" 150 50].

Definition gap_reader : ChunkReadAt (gmap string bytes) :=
  NewChunkReaderAtFromClient gap_views (Some ∅) 200.

Definition run_ReadAt (client : FilerClient) (wire : WireFetch) (p : bytes) (offset : Z)
    (c : ChunkReadAt (gmap string bytes)) (w : World nat) :=
  ReadAt counter_rand whole_id no_retry client wire p offset c w.

(** ** Vocabulary of the statements *)

(** The cursor when the bytes of [chunk] are asked for in an iteration
    entered with [k]: the gap before the view, if any, has been counted. *)
Definition at_fetch (chunk : ChunkView) (k : cursor) : cursor :=
  if cur_startOffset k <? LogicOffset chunk then gap_fill chunk k else k.

(** The iteration entered with [k] asks for the bytes of [chunk]: the
    window is not exhausted, before or after the gap, and meets the view. *)
Definition fetch_reached (chunk : ChunkView) (k : cursor) : Prop :=
  0 < cur_remaining k
  /\ 0 < cur_remaining (at_fetch chunk k)
  /\ chunkStart chunk (at_fetch chunk k) < chunkStop chunk (at_fetch chunk k).

(** The loop variables when [doReadAt] enters the loop. *)
Definition cursor0 (p : bytes) (offset : Z) : cursor := mkCursor 0 offset (len p) p.

(** The values of a view are in the range of their types, and so are the
    ends of the byte ranges it names. *)
Definition view_in_range (v : ChunkView) : Prop :=
  0 <= LogicOffset v /\ 0 <= Size v /\ LogicOffset v + Size v <= Int64.max_int
  /\ 0 <= Offset v /\ Offset v + Size v <= Int64.max_int.

(** The window [offset, offset + len p) is a range of file offsets. *)
Definition window_in_range (p : bytes) (offset : Z) : Prop :=
  0 <= offset /\ offset + len p <= Int64.max_int.

Definition reader_in_range {C} (c : ChunkReadAt C) : Prop :=
  Forall view_in_range (chunkViews c) /\ Int64.in_range (fileSize c).

(** The loop variables at the start of an iteration of the read of
    [offset, offset + len p). *)
Definition cursor_ok (p : bytes) (offset : Z) (k : cursor) : Prop :=
  0 <= cur_n k /\ 0 <= cur_remaining k
  /\ cur_n k + cur_remaining k = len p
  /\ cur_startOffset k = offset + cur_n k
  /\ length (cur_p k) = length p.

(** The loop variables when the loop is left. *)
Definition exit_ok (p : bytes) (offset : Z) (k : cursor) : Prop :=
  0 <= cur_n k <= len p
  /\ length (cur_p k) = length p
  /\ (0 < cur_remaining k ->
      cur_n k + cur_remaining k = len p /\ cur_startOffset k = offset + cur_n k).

(** The panics of the copy in [doReadAt], as opposed to those of the
    collaborators. *)
Definition is_slice_panic (why : panic) : bool :=
  match why with
  | DstSliceOutOfRange | SrcSliceOutOfRange _ _ => true
  | _ => false
  end.

(** A panic of a read over [views] is not one of the destination slice,
    and a panic of the source slice is for one of the views, the bytes
    obtained for it being fewer than [Offset + Size]. *)
Definition panic_ok (views : list ChunkView) (why : panic) : Prop :=
  why <> DstSliceOutOfRange
  /\ forall chunk buffer_len, why = SrcSliceOutOfRange chunk buffer_len ->
       In chunk views /\ buffer_len < Offset chunk + Size chunk.

(** The views are ordered ascending by logical offset and pairwise
    non-overlapping: each view ends before the later ones start. *)
Definition views_ordered (views : list ChunkView) : Prop :=
  StronglySorted (fun a b => LogicOffset a + Size a <= LogicOffset b) views.

(** The window [offset, offset + len p) lies inside the byte range of the
    view [v]. *)
Definition window_inside (p : bytes) (offset : Z) (v : ChunkView) : Prop :=
  LogicOffset v <= offset /\ offset + len p <= LogicOffset v + Size v.


(** The later states of one resolver: those its [vidCache] goes through
    as the closure is called, whatever happens to the world between the
    calls. *)
Inductive resolver_later {Rng : Type} (rand : RandSource Rng)
    (VolumeId : string -> string) (policy : RetryPolicy) (filerClient : FilerClient)
    : VidCache -> VidCache -> Prop :=
| later_now vc : resolver_later rand VolumeId policy filerClient vc vc
| later_call vc fileId w r vc1 w1 vc2 :
    lookupFileId rand VolumeId policy filerClient fileId vc w = Returns (r, vc1, w1) ->
    resolver_later rand VolumeId policy filerClient vc1 vc2 ->
    resolver_later rand VolumeId policy filerClient vc vc2.

(** A volume rule for the examples: the volume is the first character of
    the chunk identifier. *)
Definition first_char (fileId : string) : string := String.substring 0 1 fileId.

(** A reader of the same file without a content cache. *)
Definition nocache_reader : ChunkReadAt (gmap string bytes) :=
  NewChunkReaderAtFromClient gap_views None 200.

(** A reader of a file of [size] bytes without any chunk. *)
Definition empty_reader (size : Z) : ChunkReadAt (gmap string bytes) :=
  NewChunkReaderAtFromClient [] (Some ∅) size.

(** ** Concurrent callers of [readOneWholeChunk] *)

(** Modelled from the spec: the group [singleflight.Group], whose code is
    outside reader_at.go, is a keyed registry of calls in flight: a caller
    that finds a call for its key waits for it and returns its result; a
    caller that finds none registers a new call, runs [fn], publishes the
    result to the waiters and removes the call from the registry.

    The callers are goroutines inside
    [c.fetchGroup.Do(chunkView.FileId, fn)], on one reader or on several.
    [fetchGroup] is a field of [ChunkReadAt] (line 25): every reader has a
    group of its own, and the registry is keyed by reader and chunk
    identifier. The content cache is one object shared by the readers. *)
Module Concurrent.

Definition result : Type := bytes * option fetch_error.

(** Where a caller is. *)
Inductive pc :=
| Calling
| Waiting (call : nat)
| Looking (call : nat)
| Fetching (call : nat)
| Storing (call : nat) (data : bytes)
| Finishing (call : nat) (r : result)
| Forgetting (call : nat) (r : result)
| Returned (r : result)
| Crashed (why : panic).

Record thread := mkThread {
  t_reader : nat;
  t_chunk : ChunkView;
  t_pc : pc
}.

Record state (Rng : Type) := mkState {
  s_groups : gmap (nat * string) nat;
  s_calls : list (option result);
  s_cache : gmap string bytes;
  s_resolvers : gmap nat VidCache;
  s_world : World Rng;
  s_threads : list thread
}.
Arguments mkState {Rng} _ _ _ _ _ _.
Arguments s_groups {Rng} _.
Arguments s_calls {Rng} _.
Arguments s_cache {Rng} _.
Arguments s_resolvers {Rng} _.
Arguments s_world {Rng} _.
Arguments s_threads {Rng} _.

Definition set_pc (t : thread) (p : pc) : thread :=
  mkThread (t_reader t) (t_chunk t) p.

Section Steps.
Context {Rng : Type} (rand : RandSource Rng).
Context (VolumeId : string -> string) (policy : RetryPolicy).
Context (filerClient : FilerClient) (wire : WireFetch).

(** One step of the caller [t], the [i]-th thread. [None]: the caller is
    blocked or has ended. *)
Definition step_thread (i : nat) (t : thread) (s : state Rng) : option (state Rng) :=
  let key := FileId (t_chunk t) in
  let goes p := <[i := set_pc t p]> (s_threads s) in
  match t_pc t with
  | Calling =>
      let w := log (EvCoordinator key) (s_world s) in
      match s_groups s !! (t_reader t, key) with
      | Some call =>
          Some (mkState (s_groups s) (s_calls s) (s_cache s) (s_resolvers s) w
                  (goes (Waiting call)))
      | None =>
          let call := length (s_calls s) in
          Some (mkState (<[(t_reader t, key) := call]> (s_groups s))
                  (s_calls s ++ [None]) (s_cache s) (s_resolvers s) w
                  (goes (Looking call)))
      end
  | Waiting call =>
      match s_calls s !! call with
      | Some (Some r) =>
          Some (mkState (s_groups s) (s_calls s) (s_cache s) (s_resolvers s)
                  (s_world s) (goes (Returned r)))
      | _ => None
      end
  | Looking call =>
      let next :=
        match s_cache s !! key with
        | Some data => Finishing call (data, None)
        | None => Fetching call
        end in
      Some (mkState (s_groups s) (s_calls s) (s_cache s) (s_resolvers s)
              (s_world s) (goes next))
  | Fetching call =>
      let vc := default LookupFn_new (s_resolvers s !! t_reader t) in
      match fetchChunk rand VolumeId policy filerClient wire key
              (CipherKey (t_chunk t)) (IsGzipped (t_chunk t)) vc (s_world s) with
      | Panics why =>
          Some (mkState (s_groups s) (s_calls s) (s_cache s) (s_resolvers s)
                  (s_world s) (goes (Crashed why)))
      | Returns (data, err, vc', w') =>
          let next :=
            match err with
            | Some e => Finishing call (data, Some e)
            | None => Storing call data
            end in
          Some (mkState (s_groups s) (s_calls s) (s_cache s)
                  (<[t_reader t := vc']> (s_resolvers s)) w' (goes next))
      end
  | Storing call data =>
      Some (mkState (s_groups s) (s_calls s) (<[key := data]> (s_cache s))
              (s_resolvers s) (s_world s) (goes (Finishing call (data, None))))
  | Finishing call r =>
      Some (mkState (s_groups s) (<[call := Some r]> (s_calls s)) (s_cache s)
              (s_resolvers s) (s_world s) (goes (Forgetting call r)))
  | Forgetting call r =>
      Some (mkState (delete (t_reader t, key) (s_groups s)) (s_calls s) (s_cache s)
              (s_resolvers s) (s_world s) (goes (Returned r)))
  | Returned _ | Crashed _ => None
  end.

Definition step (i : nat) (s : state Rng) : option (state Rng) :=
  match s_threads s !! i with
  | Some t => step_thread i t s
  | None => None
  end.

(** The run of a schedule: the threads named are stepped in turn, a step
    that cannot be taken being skipped. *)
Fixpoint run (schedule : list nat) (s : state Rng) : state Rng :=
  match schedule with
  | [] => s
  | i :: rest => run rest (default s (step i s))
  end.

End Steps.

(** The callers [callers] (reader and view) about to call, nothing in
    flight, an empty content cache, resolvers as [LookupFn] makes them. *)
Definition init {Rng} (callers : list (nat * ChunkView)) (w : World Rng) : state Rng :=
  mkState ∅ [] ∅ ∅ w (map (fun rc => mkThread rc.1 rc.2 Calling) callers).

(** The results of the callers that have returned. *)
Definition returned {Rng} (s : state Rng) : list result :=
  omap (fun t => match t_pc t with Returned r => Some r | _ => None end) (s_threads s).


(** The callers overlap: each of them called while the first call was
    still registered, so that no second call was ever registered. *)
Definition overlapping {Rng} (s : state Rng) : Prop :=
  (length (s_calls s) <= 1)%nat.

(** *** The states of callers of one reader [rd] for one key

    [wf0] is the number of wire fetches made before the callers came. *)

(** A caller that does not run the call. *)
Definition follower_ok (calls : list (option result)) (p : pc) : Prop :=
  match p with
  | Calling => True
  | Waiting call => call = O /\ calls <> []
  | Returned r => calls = [Some r]
  | _ => False
  end.

(** The caller that runs the call. *)
Definition leader_ok {Rng} (rd : nat) (key : string) (wf0 : nat) (s : state Rng)
    (p : pc) : Prop :=
  let wf := wire_fetches (s_world s) in
  let registered := s_groups s !! (rd, key) = Some O in
  match p with
  | Looking call =>
      call = O /\ s_calls s = [None] /\ registered
      /\ s_cache s !! key = None /\ wf = wf0
  | Fetching call => call = O /\ s_calls s = [None] /\ registered /\ wf = wf0
  | Storing call _ => call = O /\ s_calls s = [None] /\ registered /\ wf = S wf0
  | Finishing call r =>
      call = O /\ s_calls s = [None] /\ registered
      /\ (wf <= S wf0)%nat /\ (r.2 = None -> wf = S wf0)
  | Forgetting call r =>
      call = O /\ s_calls s = [Some r] /\ registered
      /\ (wf <= S wf0)%nat /\ (r.2 = None -> wf = S wf0)
  | Returned r =>
      s_calls s = [Some r] /\ s_groups s !! (rd, key) = None
      /\ (wf <= S wf0)%nat /\ (r.2 = None -> wf = S wf0)
  | Crashed _ => s_calls s = [None] /\ registered /\ wf = wf0
  | Calling | Waiting _ => False
  end.

Definition nobody_called {Rng} (rd : nat) (key : string) (wf0 : nat) (s : state Rng)
    : Prop :=
  s_calls s = [] /\ s_groups s !! (rd, key) = None /\ s_cache s !! key = None
  /\ wire_fetches (s_world s) = wf0
  /\ Forall (fun t => t_pc t = Calling) (s_threads s).

Definition one_leader {Rng} (rd : nat) (key : string) (wf0 : nat) (s : state Rng)
    : Prop :=
  exists l tl,
    s_threads s !! l = Some tl /\ leader_ok rd key wf0 s (t_pc tl)
    /\ forall i t, i <> l -> s_threads s !! i = Some t -> follower_ok (s_calls s) (t_pc t).

Definition same_group {Rng} (rd : nat) (key : string) (s : state Rng) : Prop :=
  Forall (fun t => t_reader t = rd /\ FileId (t_chunk t) = key) (s_threads s).

Definition group_inv {Rng} (rd : nat) (key : string) (wf0 : nat) (s : state Rng)
    : Prop :=
  same_group rd key s
  /\ ((2 <= length (s_calls s))%nat \/ nobody_called rd key wf0 s
      \/ one_leader rd key wf0 s).

End Concurrent.

(** The first [k] callers of the group have called, in the order of their
    indices, and no caller has gone further: the first runs the call, the
    others wait for it. *)
Definition Concurrent_entered {Rng} (rd : nat) (key : string) (k : nat)
    (s : Concurrent.state Rng) : Prop :=
  Concurrent.s_calls s = [None]
  /\ Concurrent.s_groups s !! (rd, key) = Some O
  /\ Concurrent.same_group rd key s
  /\ forall i t, Concurrent.s_threads s !! i = Some t ->
       Concurrent.t_pc t =
         if decide (i = O) then Concurrent.Looking 0
         else if decide (i < k)%nat then Concurrent.Waiting 0
         else Concurrent.Calling.

(** ** Vocabulary of the further properties *)

(** The file position [x] is inside the byte range of the view [v]. *)
Definition covers (v : ChunkView) (x : Z) : Prop :=
  LogicOffset v <= x < LogicOffset v + Size v.



(** The length of the part of the window [offset, offset + len p) that is
    inside a file of [size] bytes. *)
Definition window_in_file (p : bytes) (offset size : Z) : Z :=
  Z.max 0 (Z.min (len p) (size - offset)).

(** Every view ends at or before the size of the file. *)
Definition views_within (size : Z) (views : list ChunkView) : Prop :=
  Forall (fun v => LogicOffset v + Size v <= size) views.

Definition is_read_ahead (e : event) : bool :=
  match e with EvReadAhead _ => true | _ => false end.

Definition read_aheads {Rng} (w : World Rng) : nat :=
  count_events is_read_ahead (trace w).


(** What the reader [c'] has kept of the reader [c]: the views, the size
    of the file, the locations its resolver knew, and whether it has a
    content cache. *)
Definition kept {C} (c c' : ChunkReadAt C) : Prop :=
  chunkViews c' = chunkViews c /\ fileSize c' = fileSize c
  /\ (forall vid l, lookupFileId_state c !! vid = Some l ->
      lookupFileId_state c' !! vid = Some l)
  /\ (chunkCache c = None <-> chunkCache c' = None).

(** * weed/mount: the directory handles

    A shallow embedding of the second part of the file, [package mount]:
    [NewDirectoryHandleToInode], [AcquireDirectoryHandle],
    [GetDirectoryHandle], [ReleaseDirectoryHandle], [OpenDir],
    [ReleaseDir], [FsyncDir], [ReadDir], [ReadDirPlus] and
    [doReadDirectory] (lines 239-423), for one goroutine at a time: the
    mutexes only order concurrent accesses. *)
Module Mount.

(** [uint64] and [uint32] values are integers of [Z]; an increment wraps. *)
Definition uint64_wrap (z : Z) : Z := z mod 2 ^ 64.
Definition uint32_wrap (z : Z) : Z := z mod 2 ^ 32.

(** The values of [fuse.Status] the functions return. *)
Inductive Status := OK | ENOENT | EIO.

(** [DirectoryHandle] (lines 241-245). *)
Record DirectoryHandle := mkDirectoryHandle {
  isFinished : bool;
  counter : Z;
  lastEntryName : string
}.

(** [&DirectoryHandle{isFinished: false, lastEntryName: ""}] (lines 267-270
    and 281-284): [counter] has its zero value. *)
Definition new_handle : DirectoryHandle := mkDirectoryHandle false 0 "".

(** [DirectoryHandleToInode] (lines 247-251): the map [dir2inode] from
    [DirectoryHandleId] to the handle. The map holds pointers: a handle is
    changed in place, through the pointer [GetDirectoryHandle] returns; here
    the map holds the handle's value and a change is written back under the
    handle's identifier. *)
Abbreviation DirectoryHandleToInode := (gmap Z DirectoryHandle).

(** [NewDirectoryHandleToInode] (lines 253-257). *)
Definition NewDirectoryHandleToInode : DirectoryHandleToInode := ∅.

(** The fields of [WFS] the functions use: the sequencer [fhmap.nextFh],
    taken to be a [uint64] as [DirectoryHandleId] is, [dhmap.dir2inode],
    and the collaborators [inodeToPath] and [metaCache], whose code is
    outside the file and whose states are of types [I] and [MC]. *)
Record WFS (I MC : Type) := mkWFS {
  nextFh : Z;
  dir2inode : DirectoryHandleToInode;
  inodeToPath : I;
  metaCache : MC
}.
Arguments mkWFS {I MC} _ _ _ _.
Arguments nextFh {I MC} _.
Arguments dir2inode {I MC} _.
Arguments inodeToPath {I MC} _.
Arguments metaCache {I MC} _.

Definition set_dir2inode {I MC} (wfs : WFS I MC) (m : DirectoryHandleToInode)
    : WFS I MC :=
  mkWFS (nextFh wfs) m (inodeToPath wfs) (metaCache wfs).

(** [AcquireDirectoryHandle] (lines 259-273). *)
Definition AcquireDirectoryHandle {I MC} (wfs : WFS I MC)
    : Z * DirectoryHandle * WFS I MC :=
  let fh := nextFh wfs in
  let dh := new_handle in
  (fh, dh,
   mkWFS (uint64_wrap (fh + 1)) (<[fh := dh]> (dir2inode wfs))
     (inodeToPath wfs) (metaCache wfs)).

(** [GetDirectoryHandle] (lines 275-288). *)
Definition GetDirectoryHandle {I MC} (dhid : Z) (wfs : WFS I MC)
    : DirectoryHandle * WFS I MC :=
  match dir2inode wfs !! dhid with
  | Some dh => (dh, wfs)
  | None => (new_handle, set_dir2inode wfs (<[dhid := new_handle]> (dir2inode wfs)))
  end.

(** [ReleaseDirectoryHandle] (lines 290-294). *)
Definition ReleaseDirectoryHandle {I MC} (dhid : Z) (wfs : WFS I MC) : WFS I MC :=
  set_dir2inode wfs (delete dhid (dir2inode wfs)).

(** The fields the functions use of the requests and answers of
    [go-fuse]: [fuse.OpenIn], [fuse.OpenOut], [fuse.ReleaseIn],
    [fuse.ReadIn] and [fuse.DirEntry]. *)
Record OpenIn := mkOpenIn { OpenIn_NodeId : Z }.
Record OpenOut := mkOpenOut { OpenOut_Fh : Z; OpenFlags : Z }.
Record ReleaseIn := mkReleaseIn { ReleaseIn_Fh : Z }.
Record ReadIn := mkReadIn { NodeId : Z; Length : Z; Fh : Z; Offset : Z }.
Record DirEntry := mkDirEntry { Mode : Z; Name : string; Ino : Z }.

(** [os.ModeDir]. *)
Definition ModeDir : Z := 2 ^ 31.

(** [math.MaxInt32]. *)
Definition MaxInt32 : Z := 2 ^ 31 - 1.

(** [FsyncDir] (lines 332-334). *)
Definition FsyncDir : Status := OK.

(** [dh.counter++]. *)
Definition count_entry (dh : DirectoryHandle) : DirectoryHandle :=
  mkDirectoryHandle (isFinished dh) (uint32_wrap (counter dh + 1)) (lastEntryName dh).

Definition set_lastEntryName (dh : DirectoryHandle) (name : string) : DirectoryHandle :=
  mkDirectoryHandle (isFinished dh) (counter dh) name.

Definition set_isFinished (dh : DirectoryHandle) : DirectoryHandle :=
  mkDirectoryHandle true (counter dh) (lastEntryName dh).

Section Directory.

(** The collaborators, whose code is outside the file, are taken as they
    are called. [Entry] is [filer.Entry], with its method [Name] and its
    field [Mode]; [Out] is [fuse.DirEntryList], whose [AddDirEntry] tells
    whether the entry went in and whose [AddDirLookupEntry] returns nil
    when it did not; paths ([util.FullPath]) are strings. *)
Context {I MC Entry Out : Type}.
Context (HasInode : I -> Z -> bool).
Context (GetPath : I -> Z -> string) (GetInode : I -> string -> Z).
Context (DirAndName : string -> string * string) (Child : string -> string -> string).
Context (toSystemMode : Z -> Z).
Context (Entry_Name : Entry -> string) (Entry_Mode : Entry -> Z).
Context (AddDirEntry : Out -> DirEntry -> bool * Out).
Context (AddDirLookupEntry : Out -> DirEntry -> bool * Out).
Context (outputFilerEntry : Out -> Z -> Entry -> Out).

(** [meta_cache.EnsureVisited] tells whether it failed.
    [ListDirectoryEntries] is given the directory, the name to start after,
    [includeStartFile], the limit and a callback, which works on the
    variables it captured, of type [S]; it tells whether it failed. *)
Context (EnsureVisited : MC -> string -> bool * MC).
Context (ListDirectoryEntries :
           forall S : Type, MC -> string -> string -> bool -> Z ->
                            (Entry -> S -> bool * S) -> S -> bool * S * MC).

(** [OpenDir] (lines 306-313). *)
Definition OpenDir (input : OpenIn) (out : OpenOut) (wfs : WFS I MC)
    : Status * OpenOut * WFS I MC :=
  if negb (HasInode (inodeToPath wfs) (OpenIn_NodeId input)) then (ENOENT, out, wfs)
  else
    let '(dhid, _, wfs) := AcquireDirectoryHandle wfs in
    (OK, mkOpenOut dhid (OpenFlags out), wfs).

(** [ReleaseDir] (lines 320-322). *)
Definition ReleaseDir (input : ReleaseIn) (wfs : WFS I MC) : WFS I MC :=
  ReleaseDirectoryHandle (ReleaseIn_Fh input) wfs.

(** Lines 369-384: the entries [.] and [..]; what [AddDirEntry] answers
    is not looked at. *)
Definition add_dots (i : I) (input : ReadIn) (dirPath : string)
    (s : DirectoryHandle * Out) : DirectoryHandle * Out :=
  let '(dh, out) := s in
  let dh := count_entry dh in
  let out := snd (AddDirEntry out (mkDirEntry (toSystemMode ModeDir) "." (NodeId input))) in
  let dh := count_entry dh in
  let parentDir := fst (DirAndName dirPath) in
  let parentInode := GetInode i parentDir in
  let out := snd (AddDirEntry out (mkDirEntry (toSystemMode ModeDir) ".." parentInode)) in
  (dh, out).

(** [processEachEntryFn] (lines 386-405), on the variables [dh] and [out]
    it captured. *)
Definition processEachEntryFn (i : I) (dirPath : string) (isPlusMode : bool)
    (entry : Entry) (s : DirectoryHandle * Out) : bool * (DirectoryHandle * Out) :=
  let '(dh, out) := s in
  let dh := count_entry dh in
  let name := Entry_Name entry in
  let inode := GetInode i (Child dirPath name) in
  let dirEntry := mkDirEntry (toSystemMode (Entry_Mode entry)) name inode in
  if negb isPlusMode then
    let '(added, out) := AddDirEntry out dirEntry in
    if negb added then (false, (dh, out))
    else (true, (set_lastEntryName dh (Entry_Name entry), out))
  else
    let '(added, out) := AddDirLookupEntry out dirEntry in
    if negb added then (false, (dh, out))
    else
      let out := outputFilerEntry out inode entry in
      (true, (set_lastEntryName dh (Entry_Name entry), out)).

(** [doReadDirectory] (lines 359-423). *)
Definition doReadDirectory (input : ReadIn) (out : Out) (isPlusMode : bool)
    (wfs : WFS I MC) : Status * Out * WFS I MC :=
  let '(dh, wfs) := GetDirectoryHandle (Fh input) wfs in
  if isFinished dh then (OK, out, wfs)
  else
    let store dh mc :=
      mkWFS (nextFh wfs) (<[Fh input := dh]> (dir2inode wfs)) (inodeToPath wfs) mc in
    let dirPath := GetPath (inodeToPath wfs) (NodeId input) in
    let '(dh, out) :=
      if (Offset input =? 0) && negb isPlusMode
      then add_dots (inodeToPath wfs) input dirPath (dh, out)
      else (dh, out) in
    let '(err, mc) := EnsureVisited (metaCache wfs) dirPath in
    if err then (EIO, out, store dh mc)
    else
      let '(listErr, (dh, out), mc) :=
        ListDirectoryEntries (DirectoryHandle * Out)%type mc dirPath (lastEntryName dh)
          false MaxInt32
          (processEachEntryFn (inodeToPath wfs) dirPath isPlusMode) (dh, out) in
      if listErr then (EIO, out, store dh mc)
      else
        let dh := if counter dh <? Length input then set_isFinished dh else dh in
        (OK, out, store dh mc).

(** [ReadDir] and [ReadDirPlus] (lines 351-357). *)
Definition ReadDir (input : ReadIn) (out : Out) (wfs : WFS I MC)
    : Status * Out * WFS I MC :=
  doReadDirectory input out false wfs.

Definition ReadDirPlus (input : ReadIn) (out : Out) (wfs : WFS I MC)
    : Status * Out * WFS I MC :=
  doReadDirectory input out true wfs.

End Directory.

(** The calls on the handle table, and the handle identifiers a sequence
    of calls acquires. *)
Inductive handle_call :=
| call_Acquire
| call_Get (dhid : Z)
| call_Release (dhid : Z).

Fixpoint run_calls {I MC} (calls : list handle_call) (wfs : WFS I MC)
    : list Z * WFS I MC :=
  match calls with
  | [] => ([], wfs)
  | call_Acquire :: rest =>
      let '(dhid, _, wfs) := AcquireDirectoryHandle wfs in
      let '(ids, wfs) := run_calls rest wfs in
      (dhid :: ids, wfs)
  | call_Get dhid :: rest => run_calls rest (snd (GetDirectoryHandle dhid wfs))
  | call_Release dhid :: rest => run_calls rest (ReleaseDirectoryHandle dhid wfs)
  end.

(** *** Concrete collaborators, to run the model *)

(** A directory of the meta cache: the names of its entries, in order. An
    inode table that knows the inodes it lists; every path has inode 2 but
    the root, which has inode 1. An output list that holds [room]
    entries. *)
Definition demo_HasInode (i : list Z) (inode : Z) : bool := bool_decide (inode ∈ i).
Definition demo_GetPath (i : list Z) (inode : Z) : string := "/".
Definition demo_GetInode (i : list Z) (path : string) : Z :=
  if String.eqb path "/" then 1 else 2.
Definition demo_DirAndName (path : string) : string * string := ("/", "").
Definition demo_Child (path name : string) : string := path +:+ name.
Definition demo_toSystemMode (mode : Z) : Z := mode.

Definition demo_Add (room : nat) (out : list DirEntry) (e : DirEntry)
    : bool * list DirEntry :=
  if (length out <? room)%nat then (true, out ++ [e]) else (false, out).

Definition demo_outputFilerEntry (out : list DirEntry) (inode : Z) (entry : string)
    : list DirEntry := out.

Definition demo_EnsureVisited (mc : list string) (path : string) : bool * list string :=
  (false, mc).

Fixpoint feed {Entry S} (fn : Entry -> S -> bool * S) (entries : list Entry) (s : S) : S :=
  match entries with
  | [] => s
  | e :: rest => let '(more, s) := fn e s in if more then feed fn rest s else s
  end.

Definition demo_ListDirectoryEntries (S : Type) (mc : list string) (path start : string)
    (inclusive : bool) (limit : Z) (fn : string -> S -> bool * S) (s : S)
    : bool * S * list string :=
  (false, feed fn (filter (fun name => String.ltb start name = true) mc) s, mc).

Definition demo_doReadDirectory (room : nat) :=
  doReadDirectory demo_GetPath demo_GetInode demo_DirAndName demo_Child
    demo_toSystemMode (fun name : string => name) (fun _ : string => 0)
    (demo_Add room) (demo_Add room) demo_outputFilerEntry
    demo_EnsureVisited demo_ListDirectoryEntries.

Definition demo_OpenDir := OpenDir (I:=list Z) (MC:=list string) demo_HasInode.

(** A mount with the directory of inode 1, which holds [a], [b] and [c],
    and no handle. *)
Definition demo_wfs : WFS (list Z) (list string) :=
  mkWFS 5 NewDirectoryHandleToInode [1] ["a"; "b"; "c"].

End Mount.

(** * Properties *)

(** ** Arithmetic of [int64] *)

Lemma wrap_small z : Int64.in_range z -> Int64.wrap z = z.
Proof.
  unfold Int64.in_range, Int64.wrap, Int64.min_int, Int64.max_int,
    Int64.half, Int64.modulus.
  intros H. rewrite Z.mod_small by lia. lia.
Qed.

Lemma wrap_eqm z : (Int64.wrap z) mod Int64.modulus = z mod Int64.modulus.
Proof.
  unfold Int64.wrap.
  rewrite Zminus_mod, Zmod_mod, <- Zminus_mod.
  f_equal. lia.
Qed.

Lemma wrap_congr a b :
  a mod Int64.modulus = b mod Int64.modulus -> Int64.wrap a = Int64.wrap b.
Proof.
  intros H. unfold Int64.wrap. f_equal.
  rewrite (Zplus_mod a), (Zplus_mod b), H. reflexivity.
Qed.

Lemma wrap_sub_l a b : Int64.wrap (Int64.wrap a - b) = Int64.wrap (a - b).
Proof.
  apply wrap_congr. rewrite Zminus_mod, wrap_eqm, <- Zminus_mod. reflexivity.
Qed.

Lemma add_small a b : Int64.in_range (a + b) -> Int64.add a b = a + b.
Proof. apply wrap_small. Qed.

Lemma sub_small a b : Int64.in_range (a - b) -> Int64.sub a b = a - b.
Proof. apply wrap_small. Qed.

Lemma max_int_eq : Int64.max_int = 9223372036854775807.
Proof. reflexivity. Qed.

Lemma min_int_eq : Int64.min_int = -9223372036854775808.
Proof. reflexivity. Qed.

(** [int64_range] proves that a value is in the range of [int64]. *)
Ltac int64_range :=
  unfold Int64.in_range; rewrite max_int_eq, min_int_eq; lia.

(** ** Slices and [copy] *)

Lemma len_nonneg {A} (s : list A) : 0 <= len s.
Proof. unfold len. lia. Qed.

Lemma slice_ok_spec {A} (s : list A) lo hi :
  slice_ok s lo hi = true <-> 0 <= lo /\ lo <= hi /\ hi <= len s.
Proof.
  unfold slice_ok. rewrite !andb_true_iff, !Z.leb_le. tauto.
Qed.

Lemma len_slice {A} (s : list A) lo hi :
  slice_ok s lo hi = true -> len (slice s lo hi) = hi - lo.
Proof.
  rewrite slice_ok_spec. unfold len, slice. intros H.
  rewrite length_take, length_drop. unfold len in H. lia.
Qed.

Lemma copy_into_length {A} (p : list A) lo hi src :
  slice_ok p lo hi = true ->
  length (fst (copy_into p lo hi src)) = length p.
Proof.
  rewrite slice_ok_spec. unfold copy_into, len. intros H. cbn [fst].
  rewrite !length_app, !length_take, length_drop. lia.
Qed.

(** ** The shuffle *)








(** With [rand.Intn] within its contract the loop does not panic, and is
    the loop on the values it draws. *)
Lemma shuffle_loop_draws {Rng A} (rand : RandSource Rng) i g (t : list A) :
  Intn_in_range rand -> (i < length t)%nat ->
  valid_draws i (draws rand i g)
  /\ exists g', shuffle_loop rand i g t = Returns (shuffle_draws i (draws rand i g) t, g').
Proof.
  intros Hrand. revert g t. induction i as [|i IH]; intros g t Hlt.
  - split; [exact I|]. eexists. reflexivity.
  - cbn [draws shuffle_loop].
    pose proof (Hrand g (Z.of_nat (S i) + 1) ltac:(lia)) as Hj.
    destruct (Intn rand g (Z.of_nat (S i) + 1)) as [j g1]. cbn [fst] in Hj.
    destruct (Z.ltb_spec j 0); [lia|].
    cbn [shuffle_draws]. unfold swap.
    destruct (lookup_lt_is_Some_2 t (S i) Hlt) as [x ->].
    destruct (lookup_lt_is_Some_2 t (Z.to_nat j) ltac:(lia)) as [y ->].
    destruct (IH g1 (<[Z.to_nat j:=x]> (<[S i:=y]> t))) as [Hv Hloop].
    { rewrite !length_insert. lia. }
    split; [|exact Hloop]. split; [lia|exact Hv].
Qed.

Lemma shuffle_as_draws {Rng A} (rand : RandSource Rng) g (t : list A) :
  Intn_in_range rand ->
  valid_draws (length t - 1) (draws rand (length t - 1) g)
  /\ exists g', shuffle rand g t
               = Returns (shuffle_draws (length t - 1) (draws rand (length t - 1) g) t, g').
Proof.
  intros Hrand. unfold shuffle. destruct t as [|x t].
  - split; [exact I|]. eexists. reflexivity.
  - apply shuffle_loop_draws; [exact Hrand|cbn; lia].
Qed.

(** ** The trace *)

Lemma count_events_app f t1 t2 :
  count_events f (t1 ++ t2) = (count_events f t1 + count_events f t2)%nat.
Proof. unfold count_events. rewrite filter_app, length_app. reflexivity. Qed.

Lemma count_events_log {Rng} f e (w : World Rng) :
  count_events f (trace (log e w))
    = (count_events f (trace w) + if f e then 1 else 0)%nat.
Proof.
  unfold log. cbn [trace]. rewrite count_events_app. f_equal.
  unfold count_events. cbn. destruct (f e); cbn; [|reflexivity].
  destruct (decide (true = true)); [reflexivity|congruence].
Qed.

Section ResolverTrace.
Context {Rng : Type} (rand : RandSource Rng).
Context (VolumeId : string -> string) (policy : RetryPolicy).
Context (filerClient : FilerClient).

(** A retried lookup only adds lookups to the trace. *)
Lemma lookup_job_events f fileId vid (s : lookup_state Rng) :
  (forall vid', f (EvLookupVolume vid') = false) ->
  count_events f (trace (ls_world (snd (lookup_job filerClient fileId vid s))))
    = count_events f (trace (ls_world s)).
Proof.
  intros Hf. unfold lookup_job.
  destruct (LookupVolume filerClient _ vid) as [err|m]; cbn [snd ls_world].
  - rewrite count_events_log, Hf. lia.
  - destruct (m !! vid) as [l|]; [destruct (length (locations_list l) =? 0)%nat|];
      cbn [snd ls_world]; rewrite count_events_log, Hf; lia.
Qed.

Lemma retry_loop_events f fileId vid attempts (s : lookup_state Rng) :
  (forall vid', f (EvLookupVolume vid') = false) ->
  count_events f
    (trace (ls_world (snd (retry_loop policy attempts (lookup_job filerClient fileId vid) s))))
    = count_events f (trace (ls_world s)).
Proof.
  intros Hf. revert s. induction attempts as [|n IH]; intros s; cbn [retry_loop];
    pose proof (lookup_job_events f fileId vid s Hf) as Hjob;
    destruct (lookup_job filerClient fileId vid s) as [[err|] s']; cbn [snd] in *;
    try exact Hjob.
  destruct (retryable policy err); cbn [snd]; [|exact Hjob].
  rewrite IH. exact Hjob.
Qed.

Lemma lookupFileId_events f fileId vc (w : World Rng) urls err vc' w' :
  (forall vid', f (EvLookupVolume vid') = false) ->
  lookupFileId rand VolumeId policy filerClient fileId vc w
    = Returns (urls, err, vc', w') ->
  count_events f (trace w') = count_events f (trace w).
Proof.
  intros Hf. unfold lookupFileId.
  destruct (vc !! VolumeId fileId) as [l|] eqn:Ehit.
  - cbn [ls_locations ls_world ls_cache].
    destruct (shuffle rand (rng w) _) as [[t g]|]; [|discriminate].
    cbn. intros [= <- <- <- <-]. reflexivity.
  - unfold Retry.
    pose proof (retry_loop_events f fileId (VolumeId fileId) (retries policy)
                  (mkLookupState None vc w) Hf) as Hev.
    destruct (retry_loop _ _ _ _) as [[e|] s]; cbn [snd ls_world] in *.
    + intros [= <- <- <- <-]. exact Hev.
    + destruct (ls_locations s); [|discriminate].
      destruct (shuffle rand _ _) as [[t g]|]; [|discriminate].
      intros [= <- <- <- <-]. exact Hev.
Qed.

Lemma fetchChunk_events f wire fileId key gz vc (w : World Rng) data err vc' w' :
  (forall vid', f (EvLookupVolume vid') = false) ->
  (forall id, f (EvWireFetch id) = false) ->
  fetchChunk rand VolumeId policy filerClient wire fileId key gz vc w
    = Returns (data, err, vc', w') ->
  count_events f (trace w') = count_events f (trace w).
Proof.
  intros Hl Hw. unfold fetchChunk.
  destruct (lookupFileId _ _ _ _ _ _ _) as [[[[urls [e|]] vc1] w1]|] eqn:E;
    [| |discriminate]; apply (lookupFileId_events f) in E; try exact Hl.
  - intros [= <- <- <- <-]. exact E.
  - destruct (wire _ _ _ _); intros [= <- <- <- <-];
      rewrite count_events_log, Hw, E; lia.
Qed.

(** *** The cache of the resolver *)

Lemma lookup_job_cache fileId vid (s : lookup_state Rng) err s' :
  lookup_job filerClient fileId vid s = (err, s') ->
  rng (ls_world s') = rng (ls_world s)
  /\ (forall v l, ls_cache s !! v = Some l -> v <> vid -> ls_cache s' !! v = Some l)
  /\ (err = None ->
      exists l, ls_locations s' = Some l /\ ls_cache s' !! vid = Some l
                /\ locations_list l <> []).
Proof.
  unfold lookup_job.
  destruct (LookupVolume filerClient _ vid) as [e|m].
  - intros [= <- <-]. cbn. repeat split; auto. discriminate.
  - destruct (m !! vid) as [l|].
    + destruct (Nat.eqb_spec (length (locations_list l)) 0) as [Hz|Hnz];
        intros [= <- <-]; cbn; repeat split; auto; try discriminate.
      * intros v l' Hv Hne. rewrite lookup_insert_ne by congruence. exact Hv.
      * intros _. exists l. rewrite lookup_insert_eq. repeat split.
        intros E. rewrite E in Hnz. apply Hnz. reflexivity.
    + intros [= <- <-]. cbn. repeat split; auto. discriminate.
Qed.

Lemma retry_loop_cache fileId vid attempts (s : lookup_state Rng) err s' :
  retry_loop policy attempts (lookup_job filerClient fileId vid) s = (err, s') ->
  rng (ls_world s') = rng (ls_world s)
  /\ (forall v l, ls_cache s !! v = Some l -> v <> vid -> ls_cache s' !! v = Some l)
  /\ (err = None ->
      exists l, ls_locations s' = Some l /\ ls_cache s' !! vid = Some l
                /\ locations_list l <> []).
Proof.
  revert s. induction attempts as [|n IH]; intros s; cbn [retry_loop];
    destruct (lookup_job filerClient fileId vid s) as [[e|] s1] eqn:Ejob;
    pose proof (lookup_job_cache _ _ _ _ _ Ejob) as (Hrng & Hkeep & Hnew);
    try (intros [= <- <-]; repeat split; auto; discriminate).
  destruct (retryable policy e).
  - intros Hloop. apply IH in Hloop as (Hrng' & Hkeep' & Hnew').
    split; [congruence|]. split; [|exact Hnew'].
    intros v l Hv Hne. apply Hkeep'; [|exact Hne]. apply Hkeep; assumption.
  - intros [= <- <-]. repeat split; auto.
Qed.

(** A resolve of a volume that is in the cache is answered from it: no
    lookup is made, and the cache is as it was. *)
Lemma lookupFileId_hit fileId vc (w : World Rng) l :
  Intn_in_range rand -> vc !! VolumeId fileId = Some l ->
  exists urls g,
    lookupFileId rand VolumeId policy filerClient fileId vc w
      = Returns (urls, None, vc, mkWorld (trace w) g).
Proof.
  intros Hrand Hhit. unfold lookupFileId. rewrite Hhit.
  cbn [ls_locations ls_world ls_cache].
  destruct (shuffle_as_draws rand (rng w)
              (map (targetUrl filerClient fileId) (locations_list l)) Hrand)
    as [_ [g' ->]].
  eexists _, _. reflexivity.
Qed.

(** What a resolve that succeeds returns, and where it leaves the cache. *)
Lemma lookupFileId_success fileId vc (w : World Rng) urls vc' w' :
  Intn_in_range rand ->
  lookupFileId rand VolumeId policy filerClient fileId vc w
    = Returns (urls, None, vc', w') ->
  exists l,
    vc' !! VolumeId fileId = Some l
    /\ (vc !! VolumeId fileId = None -> locations_list l <> [])
    /\ let t := map (targetUrl filerClient fileId) (locations_list l) in
       let js := draws rand (length t - 1) (rng w) in
       valid_draws (length t - 1) js
       /\ urls = shuffle_draws (length t - 1) js t.
Proof.
  intros Hrand. unfold lookupFileId.
  destruct (vc !! VolumeId fileId) as [l|] eqn:Ehit.
  - cbn [ls_locations ls_world ls_cache].
    destruct (shuffle_as_draws rand (rng w)
                (map (targetUrl filerClient fileId) (locations_list l)) Hrand)
      as [Hv [g' ->]].
    intros [= <- <- <-]. exists l. repeat split; [exact Ehit|discriminate|exact Hv].
  - unfold Retry.
    destruct (retry_loop _ _ _ _) as [[e|] s] eqn:Eloop; [discriminate|].
    apply retry_loop_cache in Eloop as (Hrng & _ & Hnew).
    destruct (Hnew eq_refl) as (l & -> & Hl & Hne).
    cbn [ls_world rng] in Hrng. rewrite Hrng.
    destruct (shuffle_as_draws rand (rng w)
                (map (targetUrl filerClient fileId) (locations_list l)) Hrand)
      as [Hv [g' ->]].
    intros [= <- <- <-]. exists l. repeat split; [exact Hl|auto|exact Hv].
Qed.

(** A resolve keeps what the cache holds. *)
Lemma lookupFileId_keeps fileId vc (w : World Rng) r vc' w' v l :
  lookupFileId rand VolumeId policy filerClient fileId vc w = Returns (r, vc', w') ->
  vc !! v = Some l -> vc' !! v = Some l.
Proof.
  unfold lookupFileId. intros Hcall Hv.
  destruct (vc !! VolumeId fileId) as [l0|] eqn:Ehit.
  - cbn [ls_locations ls_world ls_cache] in Hcall.
    destruct (shuffle rand _ _) as [[t g]|]; [|discriminate].
    injection Hcall as _ <- _. exact Hv.
  - unfold Retry in Hcall.
    destruct (retry_loop _ _ _ _) as [err s] eqn:Eloop.
    apply retry_loop_cache in Eloop as (_ & Hkeep & _).
    assert (Hs : ls_cache s !! v = Some l).
    { apply Hkeep; [exact Hv|]. intros ->. congruence. }
    destruct err as [e|].
    + injection Hcall as _ <- _. exact Hs.
    + destruct (ls_locations s); [|discriminate].
      destruct (shuffle rand _ _) as [[t g]|]; [|discriminate].
      injection Hcall as _ <- _. exact Hs.
Qed.

Lemma resolver_later_keeps vc vc' v l :
  resolver_later rand VolumeId policy filerClient vc vc' ->
  vc !! v = Some l -> vc' !! v = Some l.
Proof.
  induction 1 as [vc|vc fileId w r vc1 w1 vc2 Hcall _ IH]; intros Hv; [exact Hv|].
  apply IH. eapply lookupFileId_keeps; eassumption.
Qed.

(** C5 (as amended): the cache belongs to one resolver, the closure that
    [LookupFn] returns. After a resolve by that resolver succeeded, and
    whatever resolves it was asked for since, a resolve of a chunk of the
    same volume by the same resolver is answered from the cache: it
    succeeds, adds nothing to the trace (no lookup is made), and leaves the
    cache as it was. *)
Theorem resolver_answers_from_its_cache fileId1 fileId2 vc0 (w0 : World Rng)
    urls1 vc1 w1 vc2 (w2 : World Rng) :
  Intn_in_range rand ->
  lookupFileId rand VolumeId policy filerClient fileId1 vc0 w0
    = Returns (urls1, None, vc1, w1) ->
  resolver_later rand VolumeId policy filerClient vc1 vc2 ->
  VolumeId fileId2 = VolumeId fileId1 ->
  exists urls2 w3,
    lookupFileId rand VolumeId policy filerClient fileId2 vc2 w2
      = Returns (urls2, None, vc2, w3)
    /\ trace w3 = trace w2 /\ lookups w3 = lookups w2.
Proof.
  intros Hrand Hfirst Hlater Hvol.
  destruct (lookupFileId_success _ _ _ _ _ _ Hrand Hfirst) as (l & Hl & _).
  pose proof (resolver_later_keeps _ _ _ _ Hlater Hl) as Hl2.
  rewrite <- Hvol in Hl2.
  destruct (lookupFileId_hit fileId2 vc2 w2 l Hrand Hl2) as (urls2 & g & Hcall).
  exists urls2, (mkWorld (trace w2) g). repeat split. exact Hcall.
Qed.


End ResolverTrace.

(** ** The fetch coordinator *)

Section ReaderFacts.
Context {C : Type} `{!ChunkCache C} {Rng : Type} (rand : RandSource Rng).
Context (VolumeId : string -> string) (policy : RetryPolicy).
Context (filerClient : FilerClient) (wire : WireFetch).

Local Abbreviation readOneWholeChunk' :=
  (readOneWholeChunk rand VolumeId policy filerClient wire).
Local Abbreviation readFromWholeChunkData' :=
  (readFromWholeChunkData rand VolumeId policy filerClient wire).
Local Abbreviation read_view' := (read_view rand VolumeId policy filerClient wire).

Lemma launch_readAhead_nil_cache nexts (c : ChunkReadAt C) (w : World Rng) :
  chunkCache c = None -> launch_readAhead nexts c w = Returns (tt, c, w).
Proof.
  intros Hnil. induction nexts as [|next nexts IH]; cbn; [reflexivity|].
  unfold bind, get_reader. rewrite Hnil. exact IH.
Qed.

Lemma readOneWholeChunk_nil_cache chunkView (c : ChunkReadAt C) (w : World Rng) :
  chunkCache c = None -> readOneWholeChunk' chunkView c w = Panics NilChunkCache.
Proof.
  intros Hnil. unfold readOneWholeChunk, bind, emit, cache_GetChunk.
  cbn. rewrite Hnil. reflexivity.
Qed.

Lemma readFromWholeChunkData_hit chunkView nexts (c : ChunkReadAt C) (w : World Rng) :
  lastChunkFileId c = FileId chunkView ->
  readFromWholeChunkData' chunkView nexts c w = Returns ((lastChunkData c, None), c, w).
Proof.
  intros Hid. unfold readFromWholeChunkData, bind, get_reader.
  rewrite Hid, String.eqb_refl. reflexivity.
Qed.

Lemma readFromWholeChunkData_miss chunkView nexts (c : ChunkReadAt C) (w : World Rng) :
  lastChunkFileId c <> FileId chunkView ->
  readFromWholeChunkData' chunkView nexts c w =
    match readOneWholeChunk' chunkView c w with
    | Panics why => Panics why
    | Returns ((v, Some e), c', w') => Returns (([], Some e), c', w')
    | Returns ((v, None), c', w') =>
        match launch_readAhead nexts (set_lastChunk c' (FileId chunkView) v) w' with
        | Panics why => Panics why
        | Returns (_, c'', w'') => Returns ((v, None), c'', w'')
        end
    end.
Proof.
  intros Hid. unfold readFromWholeChunkData, bind, get_reader.
  apply String.eqb_neq in Hid. rewrite Hid.
  destruct (readOneWholeChunk' chunkView c w) as [[[[v [e|]] c'] w']|why];
    reflexivity.
Qed.

Lemma shuffle_loop_panic {A} i g (t : list A) why :
  shuffle_loop rand i g t = Panics why -> why = IndexOutOfRange.
Proof.
  revert g t. induction i as [|i IH]; intros g t; cbn [shuffle_loop].
  - discriminate.
  - destruct (Intn rand g _) as [j g']. destruct (j <? 0); [congruence|].
    destruct (swap t (Datatypes.S i) (Z.to_nat j)); [apply IH|congruence].
Qed.

Lemma lookupFileId_panic fileId vc (w : World Rng) why :
  lookupFileId rand VolumeId policy filerClient fileId vc w = Panics why ->
  is_slice_panic why = false.
Proof.
  unfold lookupFileId.
  destruct (match vc !! VolumeId fileId with Some _ => _ | None => _ end) as [[e|] s];
    [discriminate|].
  destruct (ls_locations s) as [l|]; [|intros [= <-]; reflexivity].
  destruct (shuffle rand _ _) as [[t g]|why'] eqn:E; [discriminate|].
  intros [= <-]. apply shuffle_loop_panic in E. subst. reflexivity.
Qed.

Lemma doFetchFullChunkData_panic chunkView (c : ChunkReadAt C) (w : World Rng) why :
  doFetchFullChunkData rand VolumeId policy filerClient wire chunkView c w = Panics why ->
  is_slice_panic why = false.
Proof.
  unfold doFetchFullChunkData, fetchChunk.
  destruct (lookupFileId _ _ _ _ _ _ _) as [[[[urls [e|]] vc] w']|why'] eqn:E.
  - discriminate.
  - destruct (wire _ _ _ _); discriminate.
  - intros [= <-]. eapply lookupFileId_panic, E.
Qed.

Lemma readOneWholeChunk_panic chunkView (c : ChunkReadAt C) (w : World Rng) why :
  readOneWholeChunk' chunkView c w = Panics why -> is_slice_panic why = false.
Proof.
  unfold readOneWholeChunk, bind, emit, cache_GetChunk, cache_SetChunk, ret.
  destruct (chunkCache c) as [cache|]; [|intros [= <-]; reflexivity].
  destruct (GetChunk cache _ _) as [[data|] cache']; [discriminate|].
  destruct (doFetchFullChunkData _ _ _ _ _ _ _ _) as [[[[data [e|]] c'] w']|why'] eqn:E.
  - discriminate.
  - destruct (chunkCache c'); [discriminate|]. intros [= <-]; reflexivity.
  - intros [= <-]. eapply doFetchFullChunkData_panic, E.
Qed.

Lemma launch_readAhead_returns nexts (c : ChunkReadAt C) (w : World Rng) :
  exists w', launch_readAhead nexts c w = Returns (tt, c, w').
Proof.
  revert w. induction nexts as [|next nexts IH]; intros w; cbn [launch_readAhead].
  - eexists; reflexivity.
  - unfold bind, get_reader, emit.
    destruct (chunkCache c), next; apply IH.
Qed.

Lemma readFromWholeChunkData_panic chunkView nexts (c : ChunkReadAt C) (w : World Rng) why :
  readFromWholeChunkData' chunkView nexts c w = Panics why ->
  is_slice_panic why = false.
Proof.
  destruct (String.eqb_spec (lastChunkFileId c) (FileId chunkView)) as [Hid|Hid].
  - rewrite readFromWholeChunkData_hit by exact Hid. discriminate.
  - rewrite readFromWholeChunkData_miss by exact Hid.
    destruct (readOneWholeChunk' chunkView c w) as [[[[v [e|]] c'] w']|why'] eqn:E.
    + discriminate.
    + destruct (launch_readAhead_returns nexts (set_lastChunk c' (FileId chunkView) v) w')
        as [w'' ->]. discriminate.
    + intros [= <-]. eapply readOneWholeChunk_panic, E.
Qed.

(** *** Calls of the coordinator *)

Lemma doFetchFullChunkData_events f chunkView (c : ChunkReadAt C) (w : World Rng) r c' w' :
  (forall vid, f (EvLookupVolume vid) = false) ->
  (forall id, f (EvWireFetch id) = false) ->
  doFetchFullChunkData rand VolumeId policy filerClient wire chunkView c w
    = Returns (r, c', w') ->
  count_events f (trace w') = count_events f (trace w).
Proof.
  intros Hl Hw. unfold doFetchFullChunkData.
  destruct (fetchChunk _ _ _ _ _ _ _ _ _ _) as [[[[data err] vc] w1]|] eqn:E;
    [|discriminate].
  intros [= <- <- <-]. eapply fetchChunk_events; eauto.
Qed.


Lemma launch_readAhead_coordinator nexts (c : ChunkReadAt C) (w : World Rng) r c' w' :
  launch_readAhead nexts c w = Returns (r, c', w') ->
  c' = c /\ coordinator_calls w' = coordinator_calls w.
Proof.
  revert w. induction nexts as [|next nexts IH]; intros w; cbn [launch_readAhead].
  - intros [= <- <- <-]. split; reflexivity.
  - unfold bind, get_reader, emit.
    destruct (chunkCache c), next; try apply IH.
    intros H. apply IH in H. destruct H as [-> ->]. split; [reflexivity|].
    unfold coordinator_calls. rewrite count_events_log. cbn. lia.
Qed.


(** *** What a fetch leaves alone *)



(** C10: with a nil content cache the read-ahead launch is skipped, a view
    held by the recency slot is served from it, and every other way to the
    chunk's bytes ends in the nil-cache access of [readOneWholeChunk]: the
    coordinator itself, [readFromWholeChunkData] on a slot miss, and the
    loop body on a view that meets the window. *)
Theorem nil_cache_read_panics (c : ChunkReadAt C) (w : World Rng)
    (chunkView : ChunkView) (nextChunk : option ChunkView) (offset : Z) (k : cursor) :
  chunkCache c = None ->
  launch_readAhead [nextChunk] c w = Returns (tt, c, w)
  /\ readOneWholeChunk' chunkView c w = Panics NilChunkCache
  /\ (lastChunkFileId c = FileId chunkView ->
      readFromWholeChunkData' chunkView [nextChunk] c w
        = Returns ((lastChunkData c, None), c, w))
  /\ (lastChunkFileId c <> FileId chunkView ->
      readFromWholeChunkData' chunkView [nextChunk] c w = Panics NilChunkCache)
  /\ (lastChunkFileId c <> FileId chunkView ->
      chunkStart chunkView k < chunkStop chunkView k ->
      read_view' offset chunkView nextChunk k c w = Panics NilChunkCache).
Proof.
  intros Hnil. split; [|split; [|split; [|split]]].
  - apply launch_readAhead_nil_cache, Hnil.
  - apply readOneWholeChunk_nil_cache, Hnil.
  - apply readFromWholeChunkData_hit.
  - intros Hid. rewrite readFromWholeChunkData_miss by exact Hid.
    rewrite readOneWholeChunk_nil_cache by exact Hnil. reflexivity.
  - intros Hid Hlt. unfold read_view.
    destruct (Z.geb_spec (chunkStart chunkView k) (chunkStop chunkView k)); [lia|].
    unfold bind. rewrite readFromWholeChunkData_miss by exact Hid.
    rewrite readOneWholeChunk_nil_cache by exact Hnil. reflexivity.
Qed.

(** ** The loop of [doReadAt] *)

Local Abbreviation visit' := (visit rand VolumeId policy filerClient wire).
Local Abbreviation walk' := (walk rand VolumeId policy filerClient wire).
Local Abbreviation iterate' := (iterate rand VolumeId policy filerClient wire).
Local Abbreviation doReadAt' := (doReadAt rand VolumeId policy filerClient wire).

Lemma walk_cons offset chunk rest k (c : ChunkReadAt C) (w : World Rng) :
  walk' offset (chunk :: rest) k c w =
    match visit' offset chunk (head rest) k c w with
    | Returns (Next k', c', w') => walk' offset rest k' c' w'
    | Returns (Exit e, c', w') => Returns (e, c', w')
    | Panics why => Panics why
    end.
Proof.
  cbn [walk]. unfold bind.
  destruct (visit' offset chunk (head rest) k c w) as [[[[k'|e] c'] w']|why];
    reflexivity.
Qed.

(** The loop over [pre ++ chunk :: post] runs the iterations over [pre]
    and, unless one of them leaves the loop, goes on with [chunk]. *)
Lemma walk_app offset pre chunk post k (c : ChunkReadAt C) (w : World Rng) :
  walk' offset (pre ++ chunk :: post) k c w =
    match iterate' offset pre (Some chunk) k c w with
    | Returns (Next k1, c1, w1) => walk' offset (chunk :: post) k1 c1 w1
    | Returns (Exit e, c1, w1) => Returns (e, c1, w1)
    | Panics why => Panics why
    end.
Proof.
  revert k c w. induction pre as [|v pre IH]; intros k c w.
  - reflexivity.
  - change ((v :: pre) ++ chunk :: post) with (v :: (pre ++ chunk :: post)).
    rewrite walk_cons. cbn [iterate]. unfold bind.
    replace (head (pre ++ chunk :: post))
      with (match pre with [] => Some chunk | next :: _ => Some next end)
      by (destruct pre; reflexivity).
    destruct (visit' offset v _ k c w) as [[[[k'|e] c'] w']|why]; try reflexivity.
    apply IH.
Qed.

(** An iteration that reaches the fetch and is refused the bytes returns
    from [doReadAt] at once. *)
Lemma visit_fetch_fails offset chunk nextChunk k (c : ChunkReadAt C) (w : World Rng)
    buf e c' w' :
  fetch_reached chunk k ->
  readFromWholeChunkData' chunk [nextChunk] c w = Returns ((buf, Some e), c', w') ->
  visit' offset chunk nextChunk k c w
    = Returns (Exit (LoopReturn (at_fetch chunk k) e), c', w').
Proof.
  intros (Hrem & Hrem' & Hmeet) Hfetch.
  assert (Hview : read_view' offset chunk nextChunk (at_fetch chunk k) c w
            = Returns (Exit (LoopReturn (at_fetch chunk k) e), c', w')).
  { unfold read_view.
    destruct (Z.geb_spec (chunkStart chunk (at_fetch chunk k))
                (chunkStop chunk (at_fetch chunk k))); [lia|].
    unfold bind. rewrite Hfetch. reflexivity. }
  unfold visit. unfold at_fetch in *.
  destruct (Z.leb_spec (cur_remaining k) 0); [lia|].
  destruct (cur_startOffset k <? LogicOffset chunk); [|exact Hview].
  destruct (Z.leb_spec (cur_remaining (gap_fill chunk k)) 0); [lia|exact Hview].
Qed.

(** C3: when the iterations over the views before [chunk] have gone
    through with the cursor [k1], and the iteration for [chunk] reaches the
    fetch and the fetch fails with [e], [doReadAt] returns at once: the
    error is [e], and the count is the one accumulated by the earlier
    iterations, [cur_n k1], with the gap before [chunk] added when there is
    one; the bytes copied so far are in the buffer, and neither the
    trailing fill nor end-of-file is applied. *)
Theorem fetch_failure_keeps_partial_result (c : ChunkReadAt C) (w : World Rng)
    (p : bytes) (offset : Z) pre chunk post k1 c1 w1 buf e c2 w2 :
  chunkViews c = pre ++ chunk :: post ->
  iterate' offset pre (Some chunk) (cursor0 p offset) c w = Returns (Next k1, c1, w1) ->
  fetch_reached chunk k1 ->
  readFromWholeChunkData' chunk [head post] c1 w1 = Returns ((buf, Some e), c2, w2) ->
  doReadAt' p offset c w
    = Returns ((cur_p (at_fetch chunk k1), cur_n (at_fetch chunk k1), Some (Failed e)),
               c2, w2)
  /\ cur_p (at_fetch chunk k1) = cur_p k1
  /\ cur_n (at_fetch chunk k1) =
       if cur_startOffset k1 <? LogicOffset chunk
       then Int64.add (cur_n k1)
              (Z.min (Int64.sub (LogicOffset chunk) (cur_startOffset k1))
                     (cur_remaining k1))
       else cur_n k1.
Proof.
  intros Hviews Hpre Hreach Hfetch. split; [|split].
  - unfold doReadAt, bind, get_reader. rewrite Hviews, walk_app.
    unfold cursor0 in Hpre. rewrite Hpre, walk_cons.
    rewrite (visit_fetch_fails _ _ _ _ _ _ _ _ _ _ Hreach Hfetch). reflexivity.
  - unfold at_fetch. destruct (cur_startOffset k1 <? LogicOffset chunk); reflexivity.
  - unfold at_fetch. destruct (cur_startOffset k1 <? LogicOffset chunk); reflexivity.
Qed.

(** C4: [doReadAt] panics when the loop does; otherwise it returns, with
    the fetch error exactly when the loop was left by the [return] of line
    140, and with end-of-file exactly when the loop was left without a
    fetch error and [offset + len(p) >= fileSize]. *)
Theorem eof_iff_no_error_and_window_reaches_size (c : ChunkReadAt C) (w : World Rng)
    (p : bytes) (offset : Z) :
  Int64.in_range (offset + len p) ->
  match walk' offset (chunkViews c) (cursor0 p offset) c w with
  | Panics why => doReadAt' p offset c w = Panics why
  | Returns (r, c', w') =>
      exists p' n err,
        doReadAt' p offset c w = Returns ((p', n, err), c', w')
        /\ (err = Some io_EOF <->
            (exists k, r = LoopDone k) /\ offset + len p >= fileSize c)
        /\ (forall e, err = Some (Failed e) <-> exists k, r = LoopReturn k e)
        /\ (err = None <->
            (exists k, r = LoopDone k) /\ offset + len p < fileSize c)
  end.
Proof.
  intros Hrange. unfold doReadAt, bind, get_reader, cursor0.
  destruct (walk' offset (chunkViews c) _ c w) as [[[r c'] w']|why]; [|reflexivity].
  destruct r as [k|k e]; (eexists _, _, _; split; [reflexivity|]).
  - rewrite add_small by exact Hrange.
    destruct (Z.geb_spec (offset + len p) (fileSize c)); naive_solver lia.
  - naive_solver.
Qed.

(** *** The bounds of the loop variables *)

Lemma cursor0_ok (p : bytes) offset : cursor_ok p offset (cursor0 p offset).
Proof. unfold cursor_ok, cursor0; cbn. pose proof (len_nonneg p). lia. Qed.

Lemma gap_fill_ok p offset chunk k :
  window_in_range p offset -> view_in_range chunk -> cursor_ok p offset k ->
  cur_startOffset k < LogicOffset chunk ->
  (0 < cur_remaining (gap_fill chunk k) -> cursor_ok p offset (gap_fill chunk k))
  /\ exit_ok p offset (gap_fill chunk k).
Proof.
  intros (Hoff & Hwin) (Hlo & Hsz & Hend & _) (Hn & Hrem & Hsum & Hstart & Hlen) Hgap.
  rewrite max_int_eq in *.
  unfold gap_fill, cursor_ok, exit_ok; cbn.
  rewrite (sub_small (LogicOffset chunk)) by int64_range.
  rewrite (sub_small (cur_remaining k)) by int64_range.
  rewrite add_small by int64_range.
  split; [intros Hpos|]; repeat split; try lia.
Qed.

Lemma chunkStop_exact p offset chunk k :
  window_in_range p offset -> view_in_range chunk -> cursor_ok p offset k ->
  chunkStop chunk k
    = Z.min (LogicOffset chunk + Size chunk) (cur_startOffset k + cur_remaining k).
Proof.
  intros (Hoff & Hwin) (Hlo & Hsz & Hend & _) (Hn & Hrem & Hsum & Hstart & Hlen).
  rewrite max_int_eq in *. unfold chunkStop.
  rewrite (wrap_small (Size chunk)) by int64_range.
  rewrite !add_small by int64_range. reflexivity.
Qed.

(** The copy of lines 142-145, for a cursor at or after the start of the
    view: the destination slice is in bounds; the source slice is in bounds
    exactly when the bytes reach the end of the part that is read. *)
Lemma copy_chunk_ok p offset chunk buffer k (c : ChunkReadAt C) (w : World Rng) :
  window_in_range p offset -> view_in_range chunk -> cursor_ok p offset k ->
  LogicOffset chunk <= cur_startOffset k ->
  chunkStart chunk k < chunkStop chunk k ->
  let d := chunkStop chunk k - chunkStart chunk k in
  let bhi := cur_startOffset k - LogicOffset chunk + Offset chunk + d in
  chunkStart chunk k = cur_startOffset k
  /\ 0 < d <= cur_remaining k
  /\ bhi <= Offset chunk + Size chunk
  /\ copy_chunk offset chunk (chunkStart chunk k) (chunkStop chunk k) buffer k c w =
       if bhi <=? len buffer
       then Returns
              (mkCursor (cur_n k + d) (cur_startOffset k + d) (cur_remaining k - d)
                 (fst (copy_into (cur_p k) (cur_n k) (cur_n k + d)
                         (slice buffer (bhi - d) bhi))),
               c, w)
       else Panics (SrcSliceOutOfRange chunk (len buffer)).
Proof.
  intros Hw Hv Hk Hge Hmeet d bhi.
  pose proof (chunkStop_exact _ _ _ _ Hw Hv Hk) as Hstop.
  destruct Hw as (Hoff & Hwin).
  destruct Hv as (Hlo & Hsz & Hend & Hoffs & Hoffe).
  destruct Hk as (Hn & Hrem & Hsum & Hstart & Hlen).
  rewrite max_int_eq in *.
  assert (Hcs : chunkStart chunk k = cur_startOffset k) by (unfold chunkStart; lia).
  subst d bhi. rewrite Hcs in *.
  set (stop := chunkStop chunk k) in *.
  split; [reflexivity|]. split; [lia|]. split; [lia|].
  unfold copy_chunk.
  rewrite (sub_small (cur_startOffset k) (LogicOffset chunk)) by int64_range.
  rewrite (add_small _ (Offset chunk)) by int64_range.
  rewrite (sub_small (cur_startOffset k) offset) by int64_range.
  rewrite (sub_small stop) by int64_range.
  rewrite (add_small _ (cur_startOffset k)) by int64_range.
  rewrite (sub_small _ offset) by int64_range.
  set (d := stop - cur_startOffset k) in *.
  set (bo := cur_startOffset k - LogicOffset chunk + Offset chunk) in *.
  assert (Hbhi : Int64.sub (Int64.add bo stop) (cur_startOffset k) = bo + d).
  { unfold Int64.sub, Int64.add. rewrite wrap_sub_l.
    rewrite wrap_small by (subst bo d; int64_range). subst bo d. lia. }
  rewrite !Hbhi.
  replace (cur_startOffset k - offset) with (cur_n k) by lia.
  replace (d + cur_startOffset k - offset) with (cur_n k + d) by lia.
  assert (Hdst : slice_ok (cur_p k) (cur_n k) (cur_n k + d) = true).
  { apply slice_ok_spec. unfold len in *. rewrite Hlen. lia. }
  rewrite Hdst. cbn [negb].
  destruct (Z.leb_spec (bo + d) (len buffer)) as [Hsrc|Hsrc].
  - assert (Hok : slice_ok buffer bo (bo + d) = true)
      by (apply slice_ok_spec; lia).
    rewrite Hok. cbn [negb].
    replace (bo + d - d) with bo by lia.
    unfold copy_into at 1. rewrite (len_slice _ _ _ Hok).
    replace (Z.min (cur_n k + d - cur_n k) (bo + d - bo)) with d by lia.
    unfold ret.
    rewrite !add_small by int64_range. rewrite sub_small by int64_range.
    unfold copy_into. cbn [fst]. rewrite (len_slice _ _ _ Hok).
    replace (Z.min (cur_n k + d - cur_n k) (bo + d - bo)) with d by lia.
    reflexivity.
  - assert (Hko : slice_ok buffer bo (bo + d) = false).
    { destruct (slice_ok buffer bo (bo + d)) eqn:E; [|reflexivity].
      apply slice_ok_spec in E. lia. }
    rewrite Hko. reflexivity.
Qed.

(** One view, the gap before it dealt with. *)
Lemma read_view_ok p offset chunk nextChunk k (c : ChunkReadAt C) (w : World Rng) :
  window_in_range p offset -> view_in_range chunk -> cursor_ok p offset k ->
  LogicOffset chunk <= cur_startOffset k ->
  match read_view' offset chunk nextChunk k c w with
  | Returns (Next k', _, _) => cursor_ok p offset k'
  | Returns (Exit (LoopDone k'), _, _) => exit_ok p offset k'
  | Returns (Exit (LoopReturn k' _), _, _) => cursor_ok p offset k'
  | Panics why => panic_ok [chunk] why
  end.
Proof.
  intros Hw Hv Hk Hge. unfold read_view.
  destruct (Z.geb_spec (chunkStart chunk k) (chunkStop chunk k)) as [|Hmeet];
    [exact Hk|].
  unfold bind.
  destruct (readFromWholeChunkData' chunk [nextChunk] c w)
    as [[[[buffer [e|]] c'] w']|why] eqn:Efetch.
  - exact Hk.
  - destruct (copy_chunk_ok p offset chunk buffer k c' w' Hw Hv Hk Hge Hmeet)
      as (Hcs & Hd & Hbhi & ->).
    destruct (Z.leb_spec
                (cur_startOffset k - LogicOffset chunk + Offset chunk
                 + (chunkStop chunk k - chunkStart chunk k)) (len buffer)) as [Hsrc|Hsrc].
    + unfold ret, cursor_ok in *. cbn [cur_n cur_startOffset cur_remaining cur_p].
      destruct Hk as (Hn & Hrem & Hsum & Hstart & Hlen).
      rewrite copy_into_length
        by (apply slice_ok_spec; unfold len in *; rewrite Hlen; lia).
      repeat split; lia.
    + split; [discriminate|]. intros ch L [= <- <-].
      split; [left; reflexivity|lia].
  - apply readFromWholeChunkData_panic in Efetch.
    split; [intros ->; discriminate|intros ch L ->; discriminate].
Qed.

(** One iteration keeps the loop variables within their bounds. *)
Lemma visit_ok p offset chunk nextChunk k (c : ChunkReadAt C) (w : World Rng) :
  window_in_range p offset -> view_in_range chunk -> cursor_ok p offset k ->
  match visit' offset chunk nextChunk k c w with
  | Returns (Next k', _, _) => cursor_ok p offset k'
  | Returns (Exit (LoopDone k'), _, _) => exit_ok p offset k'
  | Returns (Exit (LoopReturn k' _), _, _) => cursor_ok p offset k'
  | Panics why => panic_ok [chunk] why
  end.
Proof.
  intros Hw Hv Hk. unfold visit.
  assert (Hexit : exit_ok p offset k).
  { destruct Hk as (Hn & Hrem & Hsum & Hstart & Hlen).
    unfold exit_ok. repeat split; lia. }
  destruct (Z.leb_spec (cur_remaining k) 0); [exact Hexit|].
  destruct (Z.ltb_spec (cur_startOffset k) (LogicOffset chunk)) as [Hgap|Hnogap].
  - destruct (gap_fill_ok p offset chunk k Hw Hv Hk Hgap) as [Hgo Hstop].
    destruct (Z.leb_spec (cur_remaining (gap_fill chunk k)) 0); [exact Hstop|].
    apply read_view_ok; auto. cbn. lia.
  - apply read_view_ok; auto.
Qed.

Lemma panic_ok_mono views views' why :
  (forall v, In v views -> In v views') -> panic_ok views why -> panic_ok views' why.
Proof.
  intros Hsub [Hdst Hsrc]. split; [exact Hdst|].
  intros ch L E. destruct (Hsrc ch L E). auto.
Qed.

(** The loop keeps the loop variables within their bounds. *)
Lemma walk_ok p offset views k (c : ChunkReadAt C) (w : World Rng) :
  window_in_range p offset -> Forall view_in_range views -> cursor_ok p offset k ->
  match walk' offset views k c w with
  | Returns (LoopDone k', _, _) => exit_ok p offset k'
  | Returns (LoopReturn k' _, _, _) => cursor_ok p offset k'
  | Panics why => panic_ok views why
  end.
Proof.
  intros Hw Hviews. revert k c w.
  induction Hviews as [|chunk rest Hv Hrest IH]; intros k c w Hk.
  - cbn. destruct Hk as (Hn & Hrem & Hsum & Hstart & Hlen).
    unfold exit_ok. repeat split; lia.
  - rewrite walk_cons.
    pose proof (visit_ok p offset chunk (head rest) k c w Hw Hv Hk) as Hvisit.
    destruct (visit' offset chunk (head rest) k c w) as [[[[k'|[k'|k' e]] c'] w']|why].
    + specialize (IH k' c' w' Hvisit).
      destruct (walk' offset rest k' c' w') as [[[[k''|k'' e] c''] w'']|why]; auto.
      eapply panic_ok_mono; [|exact IH]. intros v Hin. right. exact Hin.
    + exact Hvisit.
    + exact Hvisit.
    + eapply panic_ok_mono; [|exact Hvisit]. intros v [<-|[]]. left. reflexivity.
Qed.

Lemma doReadAt_ok p offset (c : ChunkReadAt C) (w : World Rng) :
  window_in_range p offset -> reader_in_range c ->
  match doReadAt' p offset c w with
  | Returns ((p', n, _), _, _) => 0 <= n <= len p /\ length p' = length p
  | Panics why => panic_ok (chunkViews c) why
  end.
Proof.
  intros Hw [Hviews Hsize].
  pose proof (walk_ok p offset (chunkViews c) _ c w Hw Hviews (cursor0_ok p offset))
    as Hwalk.
  unfold doReadAt, bind, get_reader. unfold cursor0 in Hwalk.
  destruct (walk' offset (chunkViews c) _ c w) as [[[[k|k e] c'] w']|why];
    [| |exact Hwalk]; unfold ret.
  - destruct Hwalk as (Hn & Hlen & Hpos). split; [|exact Hlen].
    destruct (Z.gtb_spec (cur_remaining k) 0) as [Hrem|]; [|cbn; lia].
    destruct (Z.gtb_spec (fileSize c) (cur_startOffset k)) as [Hsz|]; [|cbn; lia].
    cbn [andb]. destruct (Hpos Hrem) as [Hsum Hstart].
    destruct Hw as [Hoff Hwin]. unfold Int64.in_range in Hsize.
    rewrite max_int_eq, min_int_eq in *.
    rewrite sub_small by int64_range. rewrite add_small by int64_range. lia.
  - destruct Hwalk as (Hn & Hrem & Hsum & Hstart & Hlen). split; [lia|exact Hlen].
Qed.


(** *** A window inside one view *)

Lemma walk_exhausted offset views k (c : ChunkReadAt C) (w : World Rng) :
  cur_remaining k <= 0 -> walk' offset views k c w = Returns (LoopDone k, c, w).
Proof.
  intros Hrem. destruct views as [|chunk rest]; [reflexivity|].
  rewrite walk_cons. unfold visit.
  destruct (Z.leb_spec (cur_remaining k) 0); [reflexivity|lia].
Qed.

(** A view that ends at or before the cursor is passed without a fetch. *)
Lemma visit_skip p offset u nextChunk k (c : ChunkReadAt C) (w : World Rng) :
  window_in_range p offset -> view_in_range u -> cursor_ok p offset k ->
  0 < cur_remaining k -> LogicOffset u + Size u <= cur_startOffset k ->
  visit' offset u nextChunk k c w = Returns (Next k, c, w).
Proof.
  intros Hw Hv Hk Hrem Hbefore.
  pose proof (chunkStop_exact _ _ _ _ Hw Hv Hk) as Hstop.
  destruct Hv as (Hlo & Hsz & _).
  unfold visit, read_view.
  destruct (Z.leb_spec (cur_remaining k) 0); [lia|].
  destruct (Z.ltb_spec (cur_startOffset k) (LogicOffset u)); [lia|].
  destruct (Z.geb_spec (chunkStart u k) (chunkStop u k)) as [|Hmeet]; [reflexivity|].
  unfold chunkStart in Hmeet. lia.
Qed.

Lemma iterate_skip p offset pre following k (c : ChunkReadAt C) (w : World Rng) :
  window_in_range p offset -> Forall view_in_range pre -> cursor_ok p offset k ->
  0 < cur_remaining k ->
  Forall (fun u => LogicOffset u + Size u <= cur_startOffset k) pre ->
  iterate' offset pre following k c w = Returns (Next k, c, w).
Proof.
  intros Hw Hpre Hk Hrem Hbefore.
  induction pre as [|u pre IH]; [reflexivity|].
  apply Forall_cons in Hpre as [Hu Hpre]. apply Forall_cons in Hbefore as [Hub Hbefore].
  cbn [iterate]. unfold bind.
  rewrite (visit_skip p) by assumption. apply IH; assumption.
Qed.

Lemma views_ordered_before pre v post :
  views_ordered (pre ++ v :: post) ->
  Forall (fun u => LogicOffset u + Size u <= LogicOffset v) pre.
Proof.
  unfold views_ordered. induction pre as [|u pre IH]; cbn; intros Hs.
  - constructor.
  - apply StronglySorted_inv in Hs as [Hs Hu]. constructor; [|apply IH, Hs].
    rewrite List.Forall_forall in Hu. apply Hu, in_elt.
Qed.

(** The read of a non-empty window inside the view [v]: the bytes of [v]
    are asked for once, and no other view is read. *)
Lemma doReadAt_inside_view p offset pre v post (c : ChunkReadAt C) (w : World Rng) :
  chunkViews c = pre ++ v :: post -> views_ordered (chunkViews c) ->
  reader_in_range c -> window_in_range p offset ->
  window_inside p offset v -> 0 < len p ->
  doReadAt' p offset c w =
    match readFromWholeChunkData' v [head post] c w with
    | Panics why => Panics why
    | Returns ((_, Some e), c', w') => Returns ((p, 0, Some (Failed e)), c', w')
    | Returns ((buffer, None), c', w') =>
        let bo := offset - LogicOffset v + Offset v in
        if bo + len p <=? len buffer
        then Returns
               ((fst (copy_into p 0 (len p) (slice buffer bo (bo + len p))), len p,
                 if offset + len p >=? fileSize c then Some io_EOF else None),
                c', w')
        else Panics (SrcSliceOutOfRange v (len buffer))
    end.
Proof.
  intros Hviews Hord [Hrange Hsize] Hw [Hin1 Hin2] Hpos.
  rewrite Hviews in Hord, Hrange.
  pose proof (views_ordered_before _ _ _ Hord) as Hbefore.
  apply Forall_app in Hrange as [Hpre Hrange].
  apply Forall_cons in Hrange as [Hv Hpost].
  pose proof (cursor0_ok p offset) as Hk.
  assert (Hskip : iterate' offset pre (Some v) (cursor0 p offset) c w
                  = Returns (Next (cursor0 p offset), c, w)).
  { apply (iterate_skip p); try assumption.
    eapply List.Forall_impl; [|exact Hbefore]. cbn. intros u Hu. lia. }
  unfold doReadAt, bind, get_reader. rewrite Hviews, walk_app.
  fold (cursor0 p offset). rewrite Hskip, walk_cons.
  pose proof (chunkStop_exact _ _ _ _ Hw Hv Hk) as Hstop.
  assert (Hcs : chunkStart v (cursor0 p offset) = offset)
    by (unfold chunkStart; cbn; lia).
  assert (Hce : chunkStop v (cursor0 p offset) = offset + len p)
    by (rewrite Hstop; cbn; lia).
  unfold visit. fold (cursor0 p offset). cbn [cur_remaining cur_startOffset cursor0].
  destruct (Z.leb_spec (len p) 0); [lia|].
  destruct (Z.ltb_spec offset (LogicOffset v)); [lia|].
  unfold read_view. rewrite Hcs, Hce.
  destruct (Z.geb_spec offset (offset + len p)); [lia|].
  unfold bind.
  destruct (readFromWholeChunkData' v [head post] c w)
    as [[[[buffer [e|]] c'] w']|why]; try reflexivity.
  destruct (copy_chunk_ok p offset v buffer (cursor0 p offset) c' w' Hw Hv Hk)
    as (_ & _ & _ & Hcopy); [cbn; lia|lia|].
  rewrite Hcs, Hce in Hcopy.
  cbn [cur_remaining cur_startOffset cur_n cur_p cursor0] in Hcopy.
  replace (offset + len p - offset) with (len p) in Hcopy by lia.
  replace (offset - LogicOffset v + Offset v + len p - len p)
    with (offset - LogicOffset v + Offset v) in Hcopy by lia.
  rewrite Hcopy. cbv zeta.
  destruct (Z.leb_spec (offset - LogicOffset v + Offset v + len p) (len buffer));
    [|reflexivity].
  unfold ret. rewrite walk_exhausted by (cbn; lia).
  cbn [cur_remaining cur_startOffset cur_n cur_p].
  destruct (Z.gtb_spec (len p - len p) 0); [lia|]. cbn [andb].
  destruct Hw as [Hoff Hwin].
  rewrite add_small by (rewrite max_int_eq in *; pose proof (len_nonneg p); int64_range).
  reflexivity.
Qed.

(** [ReadAt] is [doReadAt] on the whole buffer. *)
Lemma ReadAt_doReadAt p offset :
  Int64.in_range offset ->
  ReadAt rand VolumeId policy filerClient wire p offset = doReadAt' p offset.
Proof.
  intros Hoff. unfold ReadAt. cbn [Z.to_nat drop].
  rewrite add_small by (rewrite Z.add_0_r; exact Hoff).
  rewrite Z.add_0_r. reflexivity.
Qed.


(** A reader without views: the window, cut at the file size, is counted,
    and the buffer is returned as it was given. *)
Lemma doReadAt_no_views p offset (c : ChunkReadAt C) (w : World Rng) :
  chunkViews c = [] -> window_in_range p offset -> Int64.in_range (fileSize c) ->
  doReadAt' p offset c w
    = Returns ((p,
                if (len p >? 0) && (fileSize c >? offset)
                then Z.min (len p) (fileSize c - offset) else 0,
                if offset + len p >=? fileSize c then Some io_EOF else None),
               c, w).
Proof.
  intros Hviews [Hoff Hwin] Hsize. unfold Int64.in_range in Hsize.
  rewrite max_int_eq, min_int_eq in *. pose proof (len_nonneg p).
  unfold doReadAt, bind, get_reader. rewrite Hviews. cbn [walk]. unfold ret.
  cbn [cur_remaining cur_startOffset cur_n cur_p].
  rewrite (add_small offset) by int64_range.
  destruct (Z.gtb_spec (len p) 0); [|reflexivity].
  destruct (Z.gtb_spec (fileSize c) offset); [|reflexivity].
  cbn [andb]. rewrite sub_small by int64_range. rewrite add_small by int64_range.
  reflexivity.
Qed.

End ReaderFacts.

(** ** The callers of one group *)

Ltac state_simpl :=
  cbn [Concurrent.s_calls Concurrent.s_groups Concurrent.s_cache Concurrent.s_world
       Concurrent.s_threads Concurrent.s_resolvers Concurrent.t_pc Concurrent.t_reader
       Concurrent.t_chunk Concurrent.set_pc] in *.

Section GroupFacts.
Context {Rng : Type} (rand : RandSource Rng).
Context (VolumeId : string -> string) (policy : RetryPolicy).
Context (filerClient : FilerClient) (wire : WireFetch).

Local Abbreviation step' := (Concurrent.step rand VolumeId policy filerClient wire).
Local Abbreviation run' := (Concurrent.run rand VolumeId policy filerClient wire).

(** A fetch goes to the wire at most once, and once when it succeeds. *)
Lemma fetchChunk_wire fileId key gz vc (w : World Rng) data err vc' w' :
  fetchChunk rand VolumeId policy filerClient wire fileId key gz vc w
    = Returns (data, err, vc', w') ->
  (wire_fetches w' <= S (wire_fetches w))%nat
  /\ (err = None -> wire_fetches w' = S (wire_fetches w)).
Proof.
  unfold fetchChunk.
  destruct (lookupFileId _ _ _ _ _ _ _) as [[[[urls [e|]] vc1] w1]|] eqn:E;
    [| |discriminate];
    apply (lookupFileId_events rand VolumeId policy filerClient is_wire_fetch) in E;
    try reflexivity; fold (wire_fetches w1) in E; fold (wire_fetches w) in E.
  - intros [= <- <- <- <-]. split; [lia|discriminate].
  - assert (Hlog : wire_fetches (log (EvWireFetch fileId) w1) = S (wire_fetches w)).
    { unfold wire_fetches in *. rewrite count_events_log, E. cbn. lia. }
    destruct (wire _ _ _ _); intros [= <- <- <- <-]; rewrite Hlog;
      (split; [lia|]); [discriminate|reflexivity].
Qed.

Lemma step_threads i (s s' : Concurrent.state Rng) :
  step' i s = Some s' ->
  exists t p, Concurrent.s_threads s !! i = Some t
    /\ Concurrent.s_threads s'
       = <[i := Concurrent.set_pc t p]> (Concurrent.s_threads s)
    /\ (length (Concurrent.s_calls s) <= length (Concurrent.s_calls s'))%nat.
Proof.
  unfold Concurrent.step. destruct (Concurrent.s_threads s !! i) as [t|]; [|discriminate].
  unfold Concurrent.step_thread.
  destruct (Concurrent.t_pc t) as [|c|c|c|c d|c r|c r|r|why]; try discriminate.
  - destruct (Concurrent.s_groups s !! _); intros [= <-]; eexists _, _; cbn;
      repeat split; rewrite ?length_app; lia.
  - destruct (Concurrent.s_calls s !! c) as [[r|]|]; try discriminate.
    intros [= <-]; eexists _, _; cbn; repeat split; lia.
  - intros [= <-]; eexists _, _; cbn; repeat split; lia.
  - destruct (fetchChunk _ _ _ _ _ _ _ _ _ _) as [[[[data err] vc] w1]|];
      intros [= <-]; eexists _, _; cbn; repeat split; lia.
  - intros [= <-]; eexists _, _; cbn; repeat split; lia.
  - intros [= <-]; eexists _, _; cbn; repeat split. rewrite length_insert. lia.
  - intros [= <-]; eexists _, _; cbn; repeat split; lia.
Qed.










Lemma init_group_inv rd key views (w0 : World Rng) :
  Forall (fun v => FileId v = key) views ->
  Concurrent.group_inv rd key (wire_fetches w0)
    (Concurrent.init (map (fun v => (rd, v)) views) w0).
Proof.
  intros Hviews. split.
  - unfold Concurrent.same_group, Concurrent.init. state_simpl.
    rewrite map_map. apply Forall_map. eapply Forall_impl; [exact Hviews|].
    cbn. auto.
  - right. left. unfold Concurrent.nobody_called, Concurrent.init. state_simpl.
    repeat split; try apply lookup_empty.
    rewrite map_map. apply Forall_map, Forall_true. reflexivity.
Qed.



End GroupFacts.

Section EntryFacts.
Context {Rng : Type} (rand : RandSource Rng).
Context (VolumeId : string -> string) (policy : RetryPolicy).
Context (filerClient : FilerClient) (wire : WireFetch).

Local Abbreviation step' := (Concurrent.step rand VolumeId policy filerClient wire).
Local Abbreviation run' := (Concurrent.run rand VolumeId policy filerClient wire).

Lemma run_app a b (s : Concurrent.state Rng) : run' (a ++ b) s = run' b (run' a s).
Proof. revert s. induction a as [|i a IH]; intros s; [reflexivity|]. cbn. apply IH. Qed.

(** The first caller calls. *)
Lemma entered_first rd key wf0 (s : Concurrent.state Rng) :
  Concurrent.same_group rd key s -> Concurrent.nobody_called rd key wf0 s ->
  Concurrent.s_threads s <> [] ->
  Concurrent_entered rd key 1 (run' [O] s).
Proof.
  intros Hsame (Hcalls & Hgroup & _ & _ & Hall) Hne.
  unfold Concurrent.same_group in Hsame.
  destruct (Concurrent.s_threads s) as [|t0 ts] eqn:Hts; [congruence|].
  apply Forall_cons in Hsame as [[Hrd Hkey] Hsame].
  apply Forall_cons in Hall as [Hpc Hall].
  cbn [Concurrent.run]. unfold Concurrent.step. rewrite Hts. cbn [lookup list_lookup].
  unfold Concurrent.step_thread. rewrite Hpc, Hrd, Hkey, Hgroup, Hcalls, Hts.
  cbn. unfold Concurrent_entered. state_simpl. cbn.
  split; [reflexivity|]. split; [apply lookup_insert_eq|]. split.
  - unfold Concurrent.same_group. state_simpl. constructor; auto.
  - intros [|i] t; cbn; [intros [= <-]; reflexivity|].
    intros Hi. destruct (decide (S i < 1)%nat); [lia|].
    rewrite Forall_lookup in Hall. eauto.
Qed.

(** The next caller calls while the call is in flight. *)
Lemma entered_next rd key k (s : Concurrent.state Rng) :
  Concurrent_entered rd key k s -> (1 <= k)%nat ->
  Concurrent_entered rd key (S k) (run' [k] s).
Proof.
  intros (Hcalls & Hgroup & Hsame & Hpcs) Hk. cbn [Concurrent.run].
  unfold Concurrent.step.
  destruct (Concurrent.s_threads s !! k) as [t|] eqn:Ht.
  - pose proof (Hpcs k t Ht) as Hpc.
    destruct (decide (k = 0)%nat); [lia|]. destruct (decide (k < k)%nat); [lia|].
    pose proof Hsame as Hsame'.
    unfold Concurrent.same_group in Hsame'. rewrite Forall_lookup in Hsame'.
    destruct (Hsame' k t Ht) as [Hrd Hkey].
    unfold Concurrent.step_thread. rewrite Hpc, Hrd, Hkey, Hgroup. cbn [from_option id].
    unfold Concurrent_entered. state_simpl.
    split; [exact Hcalls|]. split; [exact Hgroup|]. split.
    + unfold Concurrent.same_group. state_simpl.
      apply Forall_insert; [exact Hsame|]. cbn. auto.
    + intros i ti Hi. destruct (decide (i = k)) as [->|Hne].
      * rewrite list_lookup_insert_eq in Hi by (eapply lookup_lt_Some, Ht).
        injection Hi as <-. cbn.
        destruct (decide (k = 0)%nat); [lia|]. destruct (decide (k < S k)%nat); [|lia].
        reflexivity.
      * rewrite list_lookup_insert_ne in Hi by congruence.
        rewrite (Hpcs i ti Hi).
        destruct (decide (i = 0)%nat); [reflexivity|].
        destruct (decide (i < k)%nat), (decide (i < S k)%nat); try reflexivity; lia.
  - cbn [from_option id]. split; [exact Hcalls|]. split; [exact Hgroup|]. split; [exact Hsame|].
    intros i ti Hi. rewrite (Hpcs i ti Hi).
    assert (i < k)%nat.
    { apply lookup_lt_Some in Hi. apply lookup_ge_None in Ht. lia. }
    destruct (decide (i = 0)%nat); [reflexivity|].
    destruct (decide (i < k)%nat), (decide (i < S k)%nat); try reflexivity; lia.
Qed.

Lemma entered_all rd key wf0 k (s : Concurrent.state Rng) :
  Concurrent.same_group rd key s -> Concurrent.nobody_called rd key wf0 s ->
  Concurrent.s_threads s <> [] ->
  Concurrent_entered rd key (S k) (run' (seq 0 (S k)) s).
Proof.
  intros Hsame Hnone Hne. induction k as [|k IH].
  - eapply entered_first; eassumption.
  - rewrite seq_S, run_app. cbn [Nat.add]. apply entered_next; [exact IH|lia].
Qed.

(** Once every caller has called, no step registers a call. *)
Lemma step_after_entry i (s s' : Concurrent.state Rng) :
  step' i s = Some s' ->
  Forall (fun t => Concurrent.t_pc t <> Concurrent.Calling) (Concurrent.s_threads s) ->
  Forall (fun t => Concurrent.t_pc t <> Concurrent.Calling) (Concurrent.s_threads s')
  /\ length (Concurrent.s_calls s') = length (Concurrent.s_calls s).
Proof.
  intros Hstep Hall. unfold Concurrent.step in Hstep.
  destruct (Concurrent.s_threads s !! i) as [t|] eqn:Ht; [|discriminate].
  rewrite Forall_lookup in Hall. pose proof (Hall i t Ht) as Hpc.
  rewrite <- Forall_lookup in Hall.
  unfold Concurrent.step_thread in Hstep.
  destruct (Concurrent.t_pc t) as [|c|c|c|c d|c r|c r|r|why]; try congruence.
  - destruct (Concurrent.s_calls s !! c) as [[r|]|]; try discriminate.
    injection Hstep as <-. state_simpl. split; [|reflexivity].
    apply Forall_insert; [exact Hall|]. discriminate.
  - injection Hstep as <-. state_simpl. split; [|reflexivity].
    apply Forall_insert; [exact Hall|]. cbn.
    destruct (Concurrent.s_cache s !! _); discriminate.
  - destruct (fetchChunk _ _ _ _ _ _ _ _ _ _) as [[[[data [e|]] vc] w1]|];
      injection Hstep as <-; state_simpl; (split; [|reflexivity]);
      (apply Forall_insert; [exact Hall|]); discriminate.
  - injection Hstep as <-. state_simpl. split; [|reflexivity].
    apply Forall_insert; [exact Hall|]. discriminate.
  - injection Hstep as <-. state_simpl. split; [|apply length_insert].
    apply Forall_insert; [exact Hall|]. discriminate.
  - injection Hstep as <-. state_simpl. split; [|reflexivity].
    apply Forall_insert; [exact Hall|]. discriminate.
Qed.

Lemma run_after_entry schedule (s : Concurrent.state Rng) :
  Forall (fun t => Concurrent.t_pc t <> Concurrent.Calling) (Concurrent.s_threads s) ->
  length (Concurrent.s_calls (run' schedule s)) = length (Concurrent.s_calls s).
Proof.
  revert s. induction schedule as [|i rest IH]; intros s Hall; [reflexivity|].
  cbn [Concurrent.run]. destruct (step' i s) as [s'|] eqn:Hstep; cbn [from_option id].
  - destruct (step_after_entry _ _ _ Hstep Hall) as [Hall' Hlen].
    rewrite IH by exact Hall'. exact Hlen.
  - apply IH, Hall.
Qed.

(** The callers of one group that all call before any of them goes
    further overlap, whatever the schedule from then on. *)
Lemma callers_first_overlap rd key views (w0 : World Rng) rest :
  Forall (fun v => FileId v = key) views ->
  Concurrent.overlapping
    (run' (seq 0 (length views) ++ rest)
       (Concurrent.init (map (fun v => (rd, v)) views) w0)).
Proof.
  intros Hviews. unfold Concurrent.overlapping. rewrite run_app.
  destruct (init_group_inv rd key views w0 Hviews) as [Hsame [Hmany|[Hnone|Hlead]]].
  - cbn in Hmany. lia.
  - destruct views as [|v views].
    + cbn [length seq Concurrent.run].
      assert (Hnil : forall sched (s : Concurrent.state Rng),
                Concurrent.s_threads s = [] -> run' sched s = s).
      { induction sched as [|i sched IH]; intros s Hs; [reflexivity|].
        cbn [Concurrent.run]. unfold Concurrent.step. rewrite Hs. cbn. apply IH, Hs. }
      rewrite Hnil by reflexivity. cbn. lia.
    + cbn [length].
      pose proof (entered_all rd key _ (length views) _ Hsame Hnone ltac:(discriminate))
        as (Hcalls & _ & _ & Hpcs).
      rewrite run_after_entry; [rewrite Hcalls; cbn; lia|].
      apply Forall_lookup. intros i t Hi. rewrite (Hpcs i t Hi).
      destruct (decide (i = 0)%nat); [discriminate|].
      destruct (decide (i < S (length views))%nat); [discriminate|].
      exfalso. apply lookup_lt_Some in Hi.
      assert (Hlen : forall sched (s : Concurrent.state Rng),
                length (Concurrent.s_threads (run' sched s))
                = length (Concurrent.s_threads s)).
      { induction sched as [|j sched IH]; intros s; [reflexivity|].
        cbn [Concurrent.run]. rewrite IH.
        destruct (step' j s) as [s'|] eqn:Hstep; [|reflexivity]. cbn [from_option id].
        destruct (step_threads _ _ _ _ _ _ _ _ Hstep) as (? & ? & _ & -> & _).
        apply length_insert. }
      rewrite Hlen in Hi. unfold Concurrent.init in Hi. state_simpl.
      rewrite !length_map in Hi. cbn [length] in Hi. lia.
  - destruct Hlead as (l & tl & Hl & Hlead & _).
    unfold Concurrent.init in Hl. state_simpl.
    apply list_elem_of_lookup_2, list_elem_of_fmap in Hl as (rc & -> & _).
    destruct Hlead.
Qed.

End EntryFacts.

Section SoloFacts.
Context {Rng : Type} (rand : RandSource Rng).
Context (VolumeId : string -> string) (policy : RetryPolicy).
Context (filerClient : FilerClient) (wire : WireFetch).

(** A caller alone: the steps of the concurrent model are the call of
    [readOneWholeChunk] of the sequential one, on a reader whose content
    cache is the shared one. *)
Lemma solo_run_is_readOneWholeChunk rd v (c : ChunkReadAt (gmap string bytes))
    cache (w : World Rng) :
  chunkCache c = Some cache ->
  let s := Concurrent.run rand VolumeId policy filerClient wire [0; 0; 0; 0; 0; 0]%nat
             (Concurrent.mkState ∅ [] cache {[rd := lookupFileId_state c]} w
                [Concurrent.mkThread rd v Concurrent.Calling]) in
  match readOneWholeChunk rand VolumeId policy filerClient wire v c w with
  | Returns (r, c', w') =>
      Concurrent.s_threads s = [Concurrent.mkThread rd v (Concurrent.Returned r)]
      /\ chunkCache c' = Some (Concurrent.s_cache s)
      /\ Concurrent.s_resolvers s !! rd = Some (lookupFileId_state c')
      /\ Concurrent.s_world s = w'
  | Panics why =>
      Concurrent.s_threads s = [Concurrent.mkThread rd v (Concurrent.Crashed why)]
  end.
Proof.
  intros Hcache. cbv zeta.
  unfold readOneWholeChunk, bind, emit, cache_GetChunk, cache_SetChunk, ret,
    doFetchFullChunkData.
  rewrite Hcache. cbn [GetChunk MapCache].
  cbn [Concurrent.run].
  (* Calling *)
  unfold Concurrent.step at 1, Concurrent.step_thread. cbn.
  rewrite lookup_empty. cbn.
  (* Looking *)
  unfold Concurrent.step at 1, Concurrent.step_thread. cbn.
  destruct (cache !! FileId v) as [data|] eqn:Ehit.
  - repeat (unfold Concurrent.step at 1, Concurrent.step_thread; cbn).
    rewrite lookup_singleton_eq. auto.
  - unfold Concurrent.step at 1, Concurrent.step_thread. cbn.
    rewrite lookup_singleton_eq. cbn.
    destruct (fetchChunk _ _ _ _ _ _ _ _ _ _) as [[[[data [e|]] vc] w1]|why].
    + repeat (unfold Concurrent.step at 1, Concurrent.step_thread; cbn).
      rewrite insert_singleton_eq, lookup_singleton_eq. auto.
    + repeat (unfold Concurrent.step at 1, Concurrent.step_thread; cbn).
      rewrite insert_singleton_eq, lookup_singleton_eq. auto.
    + repeat (unfold Concurrent.step at 1, Concurrent.step_thread; cbn). reflexivity.
Qed.
End SoloFacts.

(** * The properties at work *)

Lemma counter_rand_in_range : Intn_in_range counter_rand.
Proof. intros g n Hn. cbn. apply Z.mod_pos_bound. exact Hn. Qed.

Lemma nil_cache_read_panics_witness :
  chunkCache nocache_reader = None
  /\ readOneWholeChunk counter_rand whole_id no_retry two_nodes wire_a
       (view "3,01" 0 100) nocache_reader world0 = Panics NilChunkCache.
Proof.
  split; [reflexivity|].
  exact (proj1 (proj2
    (nil_cache_read_panics counter_rand whole_id no_retry two_nodes wire_a
       nocache_reader world0 (view "3,01" 0 100) None 0 (cursor0 [] 0) eq_refl))).
Defined.

(** The read of [0, 10) by the reader without a cache panics. *)
Example nocache_read_panics :
  run_ReadAt two_nodes wire_a (replicate 10 byte_b) 0 nocache_reader world0
    = Panics NilChunkCache.
Proof. vm_compute. reflexivity. Qed.

(** The partial failure of the spec's example: the first view is fetched,
    the fetch of the second fails; 10 bytes copied and 50 bytes of gap are
    reported with the error. *)
Lemma fetch_failure_keeps_partial_result_witness :
  exists k1 c1 w1 buf e c2 w2,
    chunkViews gap_reader = [view "3,01" 0 100] ++ view "4,02" 150 50 :: []
    /\ iterate counter_rand whole_id no_retry two_nodes wire_once 90
         [view "3,01" 0 100] (Some (view "4,02" 150 50))
         (cursor0 (replicate 70 byte_b) 90) gap_reader world0
       = Returns (Next k1, c1, w1)
    /\ fetch_reached (view "4,02" 150 50) k1
    /\ readFromWholeChunkData counter_rand whole_id no_retry two_nodes wire_once
         (view "4,02" 150 50) [head []] c1 w1 = Returns ((buf, Some e), c2, w2)
    /\ doReadAt counter_rand whole_id no_retry two_nodes wire_once
         (replicate 70 byte_b) 90 gap_reader world0
       = Returns ((replicate 10 byte_a ++ replicate 60 byte_b, 60,
                   Some (Failed (FetchFailure "unreachable"))), c2, w2).
Proof.
  eexists _, _, _, _, _, _, _.
  split; [reflexivity|].
  match goal with
  | |- ?A /\ ?B /\ ?D /\ _ =>
      assert (Hiter : A) by (vm_compute; reflexivity);
      assert (Hreach : B) by (repeat split; vm_compute; reflexivity);
      assert (Hfetch : D) by (vm_compute; reflexivity)
  end.
  split; [exact Hiter|]. split; [exact Hreach|]. split; [exact Hfetch|].
  exact (proj1 (fetch_failure_keeps_partial_result counter_rand whole_id no_retry
           two_nodes wire_once gap_reader world0 (replicate 70 byte_b) 90
           [view "3,01" 0 100] (view "4,02" 150 50) [] _ _ _ _ _ _ _
           eq_refl Hiter Hreach Hfetch)).
Defined.

(** The read of [190, 210) of the 200-byte file: 10 bytes and end-of-file
    in the same call. *)
Example eof_with_bytes :
  exists c w,
    run_ReadAt two_nodes wire_a (replicate 20 byte_b) 190 gap_reader world0
      = Returns ((replicate 10 byte_a ++ replicate 10 byte_b, 10, Some io_EOF), c, w).
Proof. eexists _, _. vm_compute. reflexivity. Qed.

Lemma eof_iff_no_error_and_window_reaches_size_witness :
  Int64.in_range (190 + len (replicate 20 byte_b))
  /\ match walk counter_rand whole_id no_retry two_nodes wire_a 190
             (chunkViews gap_reader) (cursor0 (replicate 20 byte_b) 190)
             gap_reader world0 with
     | Panics why =>
         doReadAt counter_rand whole_id no_retry two_nodes wire_a
           (replicate 20 byte_b) 190 gap_reader world0 = Panics why
     | Returns (r, c', w') =>
         exists p' n err,
           doReadAt counter_rand whole_id no_retry two_nodes wire_a
             (replicate 20 byte_b) 190 gap_reader world0 = Returns ((p', n, err), c', w')
           /\ (err = Some io_EOF <->
               (exists k, r = LoopDone k)
               /\ 190 + len (replicate 20 byte_b) >= fileSize gap_reader)
           /\ (forall e, err = Some (Failed e) <-> exists k, r = LoopReturn k e)
           /\ (err = None <->
               (exists k, r = LoopDone k)
               /\ 190 + len (replicate 20 byte_b) < fileSize gap_reader)
     end.
Proof.
  assert (Hrange : Int64.in_range (190 + len (replicate 20 byte_b)))
    by (vm_compute; split; discriminate).
  split; [exact Hrange|].
  exact (eof_iff_no_error_and_window_reaches_size counter_rand whole_id no_retry
           two_nodes wire_a gap_reader world0 (replicate 20 byte_b) 190 Hrange).
Defined.

(** The read of the spec's example when the wire fetch answers 50 bytes
    for a view of 100: the slice of the chunk's bytes is out of range. *)
Example short_fetch_panics :
  run_ReadAt two_nodes wire_short (replicate 70 byte_b) 90 gap_reader world0
    = Panics (SrcSliceOutOfRange (view "3,01" 0 100) 50).
Proof. vm_compute. reflexivity. Qed.

(** With the same 50 bytes, the read of [0, 10) stays within them and
    goes through. *)
Example short_fetch_short_read :
  exists c w,
    run_ReadAt two_nodes wire_short (replicate 10 byte_b) 0 gap_reader world0
      = Returns ((replicate 10 byte_a, 10, None), c, w).
Proof. eexists _, _. vm_compute. reflexivity. Qed.




(** Two readers built over the same filer client: the resolve made for the
    first leaves the second one's cache empty, and the same chunk resolved
    for the second is looked up again; asked again, the first reader does
    not look it up. *)
Lemma location_cache_is_per_reader :
  exists d1 r1 w1 d2 r2 w2 d3 r3 w3,
    doFetchFullChunkData counter_rand first_char no_retry two_nodes wire_a
      (view "3,01" 0 100) gap_reader world0 = Returns ((d1, None), r1, w1)
    /\ doFetchFullChunkData counter_rand first_char no_retry two_nodes wire_a
         (view "3,01" 0 100)
         (NewChunkReaderAtFromClient (C:=gmap string bytes) gap_views (Some ∅) 200) w1
       = Returns ((d2, None), r2, w2)
    /\ doFetchFullChunkData counter_rand first_char no_retry two_nodes wire_a
         (view "3,01" 0 100) r1 w2 = Returns ((d3, None), r3, w3)
    /\ lookups world0 = 0%nat
    /\ lookups w1 = 1%nat
    /\ lookups w2 = 2%nat
    /\ lookups w3 = 2%nat.
Proof.
  eexists _, _, _, _, _, _, _, _, _.
  split; [vm_compute; reflexivity|].
  split; [vm_compute; reflexivity|].
  split; [vm_compute; reflexivity|].
  repeat split.
Qed.

Lemma resolver_answers_from_its_cache_witness :
  exists urls1 vc1 w1,
    Intn_in_range counter_rand
    /\ lookupFileId counter_rand first_char no_retry two_nodes "3,01" LookupFn_new world0
       = Returns (urls1, None, vc1, w1)
    /\ resolver_later counter_rand first_char no_retry two_nodes vc1 vc1
    /\ first_char "3,02" = first_char "3,01"
    /\ exists urls2 w3,
         lookupFileId counter_rand first_char no_retry two_nodes "3,02" vc1 w1
           = Returns (urls2, None, vc1, w3)
         /\ trace w3 = trace w1 /\ lookups w3 = lookups w1.
Proof.
  eexists _, _, _.
  split; [exact counter_rand_in_range|].
  match goal with
  | |- ?A /\ _ => assert (Hfirst : A) by (vm_compute; reflexivity)
  end.
  split; [exact Hfirst|]. split; [apply later_now|]. split; [reflexivity|].
  exact (resolver_answers_from_its_cache counter_rand first_char no_retry two_nodes
           "3,01" "3,02" LookupFn_new world0 _ _ _ _ _
           counter_rand_in_range Hfirst
           (later_now counter_rand first_char no_retry two_nodes _) eq_refl).
Defined.


(** The candidates of a chunk on the two nodes, with the first draw 0. *)
Example resolve_two_nodes :
  exists vc' w',
    lookupFileId counter_rand first_char no_retry two_nodes "3,01" LookupFn_new world0
      = Returns (["http://n2/3,01"; "http://n1/3,01"], None, vc', w').
Proof. eexists _, _. vm_compute. reflexivity. Qed.

(** C1: the read of [90, 160) of the file with views over [0, 100) and
    [150, 200), into a buffer that holds the byte [b] everywhere: the 50
    bytes of the gap are counted, 70 bytes being reported, and the buffer
    still holds [b] there, not zero. *)
Theorem gap_bytes_are_counted_not_written :
  exists c w,
    run_ReadAt two_nodes wire_a (replicate 70 byte_b) 90 gap_reader world0
      = Returns ((replicate 10 byte_a ++ replicate 50 byte_b ++ replicate 10 byte_a,
                  70, None), c, w)
    /\ byte_b <> zero_byte.
Proof. eexists _, _. split; [vm_compute; reflexivity|discriminate]. Qed.

(** C7: the reads of [0, 3) and of [3, 6) of a file of 3 bytes without
    chunks, into a buffer that holds [b]: 3 bytes and 0 bytes are reported,
    with end-of-file, and the buffer is left as it was, not zeroed. *)
Theorem empty_file_read_leaves_buffer :
  run_ReadAt two_nodes wire_a (replicate 3 byte_b) 0 (empty_reader 3) world0
    = Returns ((replicate 3 byte_b, 3, Some io_EOF), empty_reader 3, world0)
  /\ run_ReadAt two_nodes wire_a (replicate 3 byte_b) 3 (empty_reader 3) world0
     = Returns ((replicate 3 byte_b, 0, Some io_EOF), empty_reader 3, world0)
  /\ byte_b <> zero_byte.
Proof. repeat split; discriminate. Qed.



(** Three callers of one reader that overlap: all return the 200 bytes of
    the one wire fetch. *)
Example three_callers_one_fetch :
  let s := Concurrent.run counter_rand first_char no_retry two_nodes wire_a
             [0; 1; 2; 0; 1; 0; 0; 0; 0; 1; 2]%nat
             (Concurrent.init
                (map (fun v => (0%nat, v))
                   [view "3,01" 0 100; view "3,01" 0 100; view "3,01" 0 100]) world0) in
  Concurrent.returned s
    = [(replicate 200 byte_a, None); (replicate 200 byte_a, None);
       (replicate 200 byte_a, None)]
  /\ wire_fetches (Concurrent.s_world s) = 1%nat.
Proof. cbv zeta. split; vm_compute; reflexivity. Qed.

(** The read of [0, 10) when no location is found for the volume: the
    resolution error is returned with no byte. *)
Example unresolvable_location :
  exists c w,
    run_ReadAt no_nodes wire_a (replicate 10 byte_b) 0 gap_reader world0
      = Returns ((replicate 10 byte_b, 0,
                  Some (Failed (LocationUnresolvable "failed to locate 3,01"))), c, w).
Proof. eexists _, _. vm_compute. reflexivity. Qed.

(** * Further properties of the read path *)

Section ReadFacts.
Context {C : Type} `{!ChunkCache C} {Rng : Type} (rand : RandSource Rng).
Context (VolumeId : string -> string) (policy : RetryPolicy).
Context (filerClient : FilerClient) (wire : WireFetch).

Local Abbreviation readFromWholeChunkData' :=
  (readFromWholeChunkData rand VolumeId policy filerClient wire).
Local Abbreviation read_view' := (read_view rand VolumeId policy filerClient wire).
Local Abbreviation visit' := (visit rand VolumeId policy filerClient wire).
Local Abbreviation walk' := (walk rand VolumeId policy filerClient wire).
Local Abbreviation doReadAt' := (doReadAt rand VolumeId policy filerClient wire).

(** The gap before a view, in the integers. *)
Lemma gap_fill_exact p offset chunk k :
  window_in_range p offset -> view_in_range chunk -> cursor_ok p offset k ->
  cur_startOffset k < LogicOffset chunk ->
  gap_fill chunk k
    = mkCursor (cur_n k + Z.min (LogicOffset chunk - cur_startOffset k) (cur_remaining k))
        (LogicOffset chunk)
        (cur_remaining k - (LogicOffset chunk - cur_startOffset k)) (cur_p k).
Proof.
  intros (Hoff & Hwin) (Hlo & Hsz & Hend & _) (Hn & Hrem & Hsum & Hstart & Hlen) Hgap.
  rewrite max_int_eq in *.
  unfold gap_fill.
  rewrite (sub_small (LogicOffset chunk)) by int64_range.
  rewrite (sub_small (cur_remaining k)) by int64_range.
  rewrite add_small by int64_range. reflexivity.
Qed.

(** What one iteration does to the cursor, when it returns: the loop is
    left with the cursor as it is or after the gap, or the view is passed,
    or its bytes are copied. *)
Lemma visit_cases p offset chunk nextChunk k (c : ChunkReadAt C) (w : World Rng) r c' w' :
  window_in_range p offset -> view_in_range chunk -> cursor_ok p offset k ->
  visit' offset chunk nextChunk k c w = Returns (r, c', w') ->
  let g := at_fetch chunk k in
  (r = Exit (LoopDone k) /\ cur_remaining k <= 0 /\ c' = c /\ w' = w)
  \/ (r = Exit (LoopDone g) /\ 0 < cur_remaining k /\ cur_remaining g <= 0
      /\ cur_startOffset k < LogicOffset chunk /\ c' = c /\ w' = w)
  \/ (0 < cur_remaining g /\ cursor_ok p offset g /\ LogicOffset chunk <= cur_startOffset g
      /\ cur_p g = cur_p k
      /\ ((r = Next g /\ chunkStop chunk g <= chunkStart chunk g /\ c' = c /\ w' = w)
          \/ (chunkStart chunk g < chunkStop chunk g
              /\ exists buffer err,
                   readFromWholeChunkData' chunk [nextChunk] c w
                     = Returns ((buffer, err), c', w')
                   /\ match err with
                      | Some e => r = Exit (LoopReturn g e)
                      | None =>
                          let d := chunkStop chunk g - chunkStart chunk g in
                          let bhi := cur_startOffset g - LogicOffset chunk + Offset chunk + d in
                          bhi <= len buffer
                          /\ r = Next (mkCursor (cur_n g + d) (cur_startOffset g + d)
                                         (cur_remaining g - d)
                                         (fst (copy_into (cur_p g) (cur_n g) (cur_n g + d)
                                                 (slice buffer (bhi - d) bhi))))
                      end))).
Proof.
  intros Hw Hv Hk Hvisit g. unfold visit in Hvisit.
  destruct (Z.leb_spec (cur_remaining k) 0) as [Hdone|Hrem].
  { left. unfold ret in Hvisit. injection Hvisit as <- <- <-. auto. }
  right.
  assert (Hg : (cur_remaining g <= 0 /\ cur_startOffset k < LogicOffset chunk)
               \/ (0 < cur_remaining g /\ cursor_ok p offset g
                   /\ LogicOffset chunk <= cur_startOffset g /\ cur_p g = cur_p k)).
  { subst g. unfold at_fetch.
    destruct (Z.ltb_spec (cur_startOffset k) (LogicOffset chunk)) as [Hgap|Hnogap].
    - destruct (gap_fill_ok p offset chunk k Hw Hv Hk Hgap) as [Hgo _].
      destruct (Z.le_gt_cases (cur_remaining (gap_fill chunk k)) 0) as [Hle|Hgt].
      + left. auto.
      + right. split; [lia|]. split; [apply Hgo; lia|]. cbn. split; [lia|reflexivity].
    - right. split; [lia|]. split; [exact Hk|]. split; [lia|reflexivity]. }
  assert (Hread : (cur_remaining g <= 0 /\ cur_startOffset k < LogicOffset chunk
                   /\ Returns (Exit (LoopDone g), c, w) = Returns (r, c', w'))
                  \/ (0 < cur_remaining g
                      /\ read_view' offset chunk nextChunk g c w = Returns (r, c', w'))).
  { subst g. unfold at_fetch in *.
    destruct (Z.ltb_spec (cur_startOffset k) (LogicOffset chunk)) as [Hgap|Hnogap].
    - destruct (Z.leb_spec (cur_remaining (gap_fill chunk k)) 0).
      + left. auto.
      + right. auto.
    - right. split; [lia|exact Hvisit]. }
  clear Hvisit.
  destruct Hread as [(Hle & Hgap & Heq)|(Hgt & Hread)].
  { left. injection Heq as <- <- <-. repeat split; auto. }
  right. destruct Hg as [[Hle _]|(_ & Hgk & Hge & Hp)]; [lia|].
  split; [exact Hgt|]. split; [exact Hgk|]. split; [exact Hge|]. split; [exact Hp|].
  unfold read_view in Hread.
  destruct (Z.geb_spec (chunkStart chunk g) (chunkStop chunk g)) as [Hpass|Hmeet].
  { left. unfold ret in Hread. injection Hread as <- <- <-. repeat split; auto; lia. }
  right. split; [exact Hmeet|].
  unfold bind in Hread.
  destruct (readFromWholeChunkData' chunk [nextChunk] c w)
    as [[[[buffer [e|]] c1] w1]|why] eqn:Efetch; [| |discriminate].
  - unfold ret in Hread. injection Hread as <- <- <-.
    exists buffer, (Some e). split; reflexivity.
  - destruct (copy_chunk_ok p offset chunk buffer g c1 w1 Hw Hv Hgk Hge Hmeet)
      as (Hcs & Hd & Hbhi & Hcopy).
    rewrite Hcopy in Hread.
    destruct (Z.leb_spec
                (cur_startOffset g - LogicOffset chunk + Offset chunk
                 + (chunkStop chunk g - chunkStart chunk g)) (len buffer)) as [Hsrc|Hsrc];
      [|discriminate].
    unfold ret in Hread. injection Hread as <- <- <-.
    exists buffer, None. split; [reflexivity|]. split; [exact Hsrc|reflexivity].
Qed.


(** ** The count of a read *)

Lemma at_fetch_inside p offset size chunk k :
  window_in_range p offset -> view_in_range chunk -> cursor_ok p offset k ->
  LogicOffset chunk + Size chunk <= size ->
  cur_n k = 0 \/ offset + cur_n k <= size ->
  (cur_n (at_fetch chunk k) = 0 \/ offset + cur_n (at_fetch chunk k) <= size)
  /\ (0 < cur_remaining k -> cur_remaining (at_fetch chunk k) <= 0 ->
      cur_n (at_fetch chunk k) = len p).
Proof.
  intros Hw Hv Hk Hend Hin. unfold at_fetch.
  destruct (Z.ltb_spec (cur_startOffset k) (LogicOffset chunk)) as [Hgap|Hnogap].
  - rewrite (gap_fill_exact p offset) by assumption.
    destruct Hk as (Hn & Hrem & Hsum & Hstart & Hlen). destruct Hv as (Hlo & Hsz & _).
    cbn. split; [right|]; lia.
  - split; [exact Hin|lia].
Qed.

Lemma visit_counts p offset size chunk nextChunk k (c : ChunkReadAt C) (w : World Rng) :
  window_in_range p offset -> view_in_range chunk -> cursor_ok p offset k ->
  LogicOffset chunk + Size chunk <= size ->
  cur_n k = 0 \/ offset + cur_n k <= size ->
  match visit' offset chunk nextChunk k c w with
  | Returns (Next k', _, _) => cur_n k' = 0 \/ offset + cur_n k' <= size
  | Returns (Exit (LoopDone k'), _, _) =>
      (cur_n k' = 0 \/ offset + cur_n k' <= size)
      /\ (cur_remaining k' <= 0 -> cur_n k' = len p)
  | Returns (Exit (LoopReturn k' _), _, _) => cur_n k' = 0 \/ offset + cur_n k' <= size
  | Panics _ => True
  end.
Proof.
  intros Hw Hv Hk Hend Hin.
  destruct (visit' offset chunk nextChunk k c w) as [[[r c'] w']|why] eqn:Hvisit;
    [|exact I].
  destruct (at_fetch_inside p offset size chunk k Hw Hv Hk Hend Hin) as [Hgin Hgdone].
  pose proof (visit_cases p offset chunk nextChunk k c w r c' w' Hw Hv Hk Hvisit) as Hc.
  cbv zeta in Hc.
  destruct Hc as [(-> & Hrem & _)|[(-> & Hrem & Hgrem & _)|(Hgrem & Hgk & Hge & _ & Hc)]].
  - split; [exact Hin|]. intros _. destruct Hk as (Hn & Hrem' & Hsum & _). lia.
  - split; [exact Hgin|]. intros _. apply Hgdone; assumption.
  - destruct Hc as [(-> & _)|(Hmeet & buffer & [e|] & _ & Hr)].
    + exact Hgin.
    + subst r. exact Hgin.
    + destruct Hr as [_ ->]. cbn [cur_n]. right.
      pose proof (chunkStop_exact _ _ _ _ Hw Hv Hgk) as Hstop.
      destruct Hgk as (Hn & Hrem' & Hsum & Hstart & _).
      unfold chunkStart in *. lia.
Qed.

Lemma walk_counts p offset size views k (c : ChunkReadAt C) (w : World Rng) :
  window_in_range p offset -> Forall view_in_range views -> views_within size views ->
  cursor_ok p offset k ->
  cur_n k = 0 \/ offset + cur_n k <= size ->
  match walk' offset views k c w with
  | Returns (LoopDone k', _, _) =>
      (cur_n k' = 0 \/ offset + cur_n k' <= size)
      /\ (cur_remaining k' <= 0 -> cur_n k' = len p)
  | Returns (LoopReturn k' _, _, _) => cur_n k' = 0 \/ offset + cur_n k' <= size
  | Panics _ => True
  end.
Proof.
  intros Hw Hviews Hwithin. revert k c w.
  induction Hviews as [|chunk rest Hv Hrest IH]; intros k c w Hk Hin.
  - cbn. split; [exact Hin|]. destruct Hk as (Hn & Hrem & Hsum & _). lia.
  - apply Forall_cons in Hwithin as [Hend Hwithin].
    rewrite walk_cons.
    pose proof (visit_ok rand VolumeId policy filerClient wire
                  p offset chunk (head rest) k c w Hw Hv Hk) as Hok.
    pose proof (visit_counts p offset size chunk (head rest) k c w Hw Hv Hk Hend Hin)
      as Hcount.
    destruct (visit' offset chunk (head rest) k c w) as [[[[k'|[k'|k' e]] c'] w']|why];
      [apply IH; assumption|exact Hcount|exact Hcount|exact I].
Qed.

(** X1: for a window and views within the range of [int64], and views
    that end at or before the size of the file, the count a read returns is
    at most the length of the part of the window that is inside the file,
    [max 0 (min (len p) (fileSize - offset))], and it is that length when
    the read returns without a fetch error, whatever the views, their order
    and the gaps between them. *)
Theorem read_count_is_window_cut_at_file_size (c : ChunkReadAt C) (w : World Rng)
    (p : bytes) (offset : Z) q n err c' w' :
  window_in_range p offset -> reader_in_range c ->
  views_within (fileSize c) (chunkViews c) ->
  doReadAt' p offset c w = Returns ((q, n, err), c', w') ->
  n <= window_in_file p offset (fileSize c)
  /\ ((forall e, err <> Some (Failed e)) -> n = window_in_file p offset (fileSize c)).
Proof.
  intros Hw [Hviews Hsize] Hwithin Hread.
  pose proof (walk_ok rand VolumeId policy filerClient wire
                p offset (chunkViews c) _ c w Hw Hviews (cursor0_ok p offset)) as Hok.
  pose proof (walk_counts p offset (fileSize c) (chunkViews c) _ c w Hw Hviews Hwithin
                (cursor0_ok p offset) (or_introl eq_refl)) as Hcount.
  unfold doReadAt, bind, get_reader in Hread. unfold cursor0 in Hok, Hcount.
  destruct (walk' offset (chunkViews c) _ c w) as [[[[k|k e] c1] w1]|why];
    [| |discriminate]; unfold ret in Hread.
  - injection Hread as <- <- <- <- <-.
    destruct Hok as (Hn & Hlen & Hpos). destruct Hcount as (Hin & Hdone).
    destruct Hw as [Hoff Hwin]. unfold Int64.in_range in Hsize.
    rewrite max_int_eq, min_int_eq in *. unfold window_in_file.
    assert (Hgoal : (if (cur_remaining k >? 0) && (fileSize c >? cur_startOffset k)
                     then Int64.add (cur_n k)
                            (Z.min (cur_remaining k)
                               (Int64.sub (fileSize c) (cur_startOffset k)))
                     else cur_n k)
                    = Z.max 0 (Z.min (len p) (fileSize c - offset))).
    { destruct (Z.gtb_spec (cur_remaining k) 0) as [Hrem|Hrem].
      - destruct (Hpos Hrem) as [Hsum Hstart].
        destruct (Z.gtb_spec (fileSize c) (cur_startOffset k)) as [Hsz|Hsz]; cbn [andb].
        + rewrite sub_small by int64_range. rewrite add_small by int64_range. lia.
        + lia.
      - cbn [andb]. specialize (Hdone Hrem). lia. }
    rewrite Hgoal. split; [lia|reflexivity].
  - injection Hread as <- <- <- <- <-.
    destruct Hok as (Hn & Hrem & Hsum & Hstart & Hlen). unfold window_in_file.
    split; [lia|]. intros Herr. exfalso. eapply Herr. reflexivity.
Qed.


(** ** What a read writes *)

Lemma copy_into_outside {A} (p : list A) lo hi src (i : nat) :
  slice_ok p lo hi = true -> len src = hi - lo ->
  Z.of_nat i < lo \/ hi <= Z.of_nat i ->
  fst (copy_into p lo hi src) !! i = p !! i.
Proof.
  intros Hok Hsrc Hout. apply slice_ok_spec in Hok. unfold len in *.
  unfold copy_into. cbn [fst]. unfold len. rewrite Hsrc.
  replace (Z.min (hi - lo) (hi - lo)) with (hi - lo) by lia.
  replace (lo + (hi - lo)) with hi by lia.
  rewrite (take_ge src) by lia.
  destruct Hout as [Hbefore|Hafter].
  - rewrite lookup_app_l by (rewrite length_take; lia).
    apply lookup_take_lt. lia.
  - rewrite lookup_app_r by (rewrite length_take; lia).
    rewrite length_take.
    rewrite lookup_app_r by lia.
    rewrite lookup_drop. f_equal. lia.
Qed.

Lemma copy_into_whole {A} (p src : list A) :
  len src = len p -> fst (copy_into p 0 (len p) src) = src.
Proof.
  intros Hsrc. unfold copy_into. cbn [fst]. rewrite Hsrc.
  replace (Z.min (len p - 0) (len p)) with (len p) by lia.
  cbn [Z.to_nat take app]. unfold len in *.
  rewrite (take_ge src) by lia.
  rewrite drop_ge by lia. apply app_nil_r.
Qed.

Lemma at_fetch_p chunk k : cur_p (at_fetch chunk k) = cur_p k.
Proof. unfold at_fetch. destruct (_ <? _); reflexivity. Qed.

Lemma visit_frame p offset chunk nextChunk k (c : ChunkReadAt C) (w : World Rng) (i : nat) :
  window_in_range p offset -> view_in_range chunk -> cursor_ok p offset k ->
  ~ covers chunk (offset + Z.of_nat i) ->
  match visit' offset chunk nextChunk k c w with
  | Returns (Next k', _, _) => cur_p k' !! i = cur_p k !! i
  | Returns (Exit (LoopDone k'), _, _) => cur_p k' !! i = cur_p k !! i
  | Returns (Exit (LoopReturn k' _), _, _) => cur_p k' !! i = cur_p k !! i
  | Panics _ => True
  end.
Proof.
  intros Hw Hv Hk Hout.
  destruct (visit' offset chunk nextChunk k c w) as [[[r c'] w']|why] eqn:Hvisit;
    [|exact I].
  pose proof (visit_cases p offset chunk nextChunk k c w r c' w' Hw Hv Hk Hvisit) as Hc.
  cbv zeta in Hc. pose proof (at_fetch_p chunk k) as Hp.
  destruct Hc as [(-> & _)|[(-> & _)|(Hgrem & Hgk & Hge & _ & Hc)]];
    [reflexivity|exact (f_equal (fun l => l !! i) Hp)|].
  destruct Hc as [(-> & _)|(Hmeet & buffer & [e|] & _ & Hr)].
  - exact (f_equal (fun l => l !! i) Hp).
  - subst r. exact (f_equal (fun l => l !! i) Hp).
  - destruct Hr as [Hsrc ->]. cbn [cur_p]. rewrite <- Hp.
    pose proof (chunkStop_exact _ _ _ _ Hw Hv Hgk) as Hstop.
    destruct Hgk as (Hn & Hrem' & Hsum & Hstart & Hlen).
    destruct Hv as (Hlo & Hsz & Hend & Hoffs & Hoffe).
    assert (Hcs : chunkStart chunk (at_fetch chunk k) = cur_startOffset (at_fetch chunk k))
      by (unfold chunkStart; lia).
    apply copy_into_outside.
    + apply slice_ok_spec. unfold len in *. rewrite Hlen. lia.
    + rewrite len_slice by (apply slice_ok_spec; lia). lia.
    + unfold covers in Hout. lia.
Qed.

Lemma walk_frame p offset views k (c : ChunkReadAt C) (w : World Rng) (i : nat) :
  window_in_range p offset -> Forall view_in_range views -> cursor_ok p offset k ->
  Forall (fun v => ~ covers v (offset + Z.of_nat i)) views ->
  match walk' offset views k c w with
  | Returns (LoopDone k', _, _) => cur_p k' !! i = cur_p k !! i
  | Returns (LoopReturn k' _, _, _) => cur_p k' !! i = cur_p k !! i
  | Panics _ => True
  end.
Proof.
  intros Hw Hviews. revert k c w.
  induction Hviews as [|chunk rest Hv Hrest IH]; intros k c w Hk Hout.
  - reflexivity.
  - apply Forall_cons in Hout as [Hout1 Hout].
    rewrite walk_cons.
    pose proof (visit_ok rand VolumeId policy filerClient wire
                  p offset chunk (head rest) k c w Hw Hv Hk) as Hok.
    pose proof (visit_frame p offset chunk (head rest) k c w i Hw Hv Hk Hout1) as Hfr.
    destruct (visit' offset chunk (head rest) k c w) as [[[[k'|[k'|k' e]] c'] w']|why];
      [|exact Hfr|exact Hfr|exact I].
    specialize (IH k' c' w' Hok Hout).
    destruct (walk' offset rest k' c' w') as [[[[k''|k'' e] c''] w'']|why];
      [| |exact I]; congruence.
Qed.

(** X2: a read changes the buffer only at positions whose file offset is
    inside the byte range of one of the reader's views: a position of the
    window that no view covers holds after the read, with or without an
    error, what it held before. *)
Theorem read_writes_only_inside_views (c : ChunkReadAt C) (w : World Rng)
    (p : bytes) (offset : Z) q n err c' w' :
  window_in_range p offset -> reader_in_range c ->
  doReadAt' p offset c w = Returns ((q, n, err), c', w') ->
  forall i : nat,
    Forall (fun v => ~ covers v (offset + Z.of_nat i)) (chunkViews c) ->
    q !! i = p !! i.
Proof.
  intros Hw [Hviews Hsize] Hread i Hout.
  pose proof (walk_frame p offset (chunkViews c) _ c w i Hw Hviews (cursor0_ok p offset)
                Hout) as Hfr.
  unfold doReadAt, bind, get_reader in Hread. unfold cursor0 in Hfr.
  destruct (walk' offset (chunkViews c) _ c w) as [[[[k|k e] c1] w1]|why];
    [| |discriminate]; unfold ret in Hread;
    injection Hread as <- <- <- <- <-; exact Hfr.
Qed.

(** X3: for ordered views, the read of a non-empty window inside the view
    [v], when the bytes obtained for [v] reach the end of the window: the
    buffer returned is the slice of those bytes that starts at
    [offset - LogicOffset + Offset] and has the length of the window, the
    count is that length, and the status is end-of-file exactly when the
    window reaches the size of the file. *)
Theorem read_inside_view_returns_chunk_bytes (c : ChunkReadAt C) (w : World Rng)
    (p : bytes) (offset : Z) pre v post buffer c1 w1 :
  chunkViews c = pre ++ v :: post -> views_ordered (chunkViews c) ->
  reader_in_range c -> window_in_range p offset ->
  window_inside p offset v -> 0 < len p ->
  readFromWholeChunkData' v [head post] c w = Returns ((buffer, None), c1, w1) ->
  let bo := offset - LogicOffset v + Offset v in
  bo + len p <= len buffer ->
  doReadAt' p offset c w
    = Returns ((slice buffer bo (bo + len p), len p,
                if offset + len p >=? fileSize c then Some io_EOF else None), c1, w1).
Proof.
  intros Hviews Hord Hc Hw Hin Hpos Hfetch bo Hlong.
  rewrite (doReadAt_inside_view rand VolumeId policy filerClient wire
             p offset pre v post c w Hviews Hord Hc Hw Hin Hpos).
  rewrite Hfetch. cbv zeta. fold bo.
  destruct (Z.leb_spec (bo + len p) (len buffer)); [|lia].
  rewrite copy_into_whole; [reflexivity|].
  destruct Hin as [Hin1 Hin2]. destruct Hc as [Hrange _].
  rewrite Hviews in Hrange. apply Forall_app in Hrange as [_ Hrange].
  apply Forall_cons in Hrange as [(Hlo & Hsz & Hend & Hoffs & Hoffe) _].
  rewrite len_slice by (apply slice_ok_spec; subst bo; lia). lia.
Qed.


(** ** What a read fetches *)

Local Abbreviation readOneWholeChunk' :=
  (readOneWholeChunk rand VolumeId policy filerClient wire).



Lemma readOneWholeChunk_read_aheads chunkView (c : ChunkReadAt C) (w : World Rng) r c' w' :
  readOneWholeChunk' chunkView c w = Returns (r, c', w') ->
  read_aheads w' = read_aheads w.
Proof.
  unfold readOneWholeChunk, bind, emit, cache_GetChunk, cache_SetChunk, ret.
  assert (Hlog : read_aheads (log (EvCoordinator (FileId chunkView)) w) = read_aheads w).
  { unfold read_aheads. rewrite count_events_log. cbn. lia. }
  destruct (chunkCache c) as [cache|]; [|discriminate].
  destruct (GetChunk cache _ _) as [[data|] cache'].
  - intros [= <- <- <-]. exact Hlog.
  - destruct (doFetchFullChunkData _ _ _ _ _ _ _ _) as [[[[data [e|]] c1] w1]|] eqn:E;
      [| |discriminate];
      apply (doFetchFullChunkData_events rand VolumeId policy filerClient wire
               is_read_ahead) in E; try reflexivity.
    + intros [= <- <- <-]. unfold read_aheads. rewrite E. exact Hlog.
    + destruct (chunkCache c1); [|discriminate].
      intros [= <- <- <-]. unfold read_aheads. rewrite E. exact Hlog.
Qed.







(** ** The recency slot, the content cache and the read-ahead *)

Lemma readOneWholeChunk_cases chunkView (c : ChunkReadAt C) (w : World Rng) data err c' w' :
  readOneWholeChunk' chunkView c w = Returns ((data, err), c', w') ->
  exists cache,
    chunkCache c = Some cache
    /\ lastChunkFileId c' = lastChunkFileId c /\ lastChunkData c' = lastChunkData c
    /\ let got := GetChunk cache (FileId chunkView) (ChunkSize chunkView) in
       match got.1 with
       | Some hit =>
           data = hit /\ err = None /\ chunkCache c' = Some got.2
           /\ w' = log (EvCoordinator (FileId chunkView)) w
       | None =>
           match err with
           | Some _ => chunkCache c' = Some got.2
           | None =>
               chunkCache c' = Some (SetChunk got.2 (FileId chunkView) data)
               /\ wire_fetches w' = S (wire_fetches w)
           end
       end.
Proof.
  unfold readOneWholeChunk, bind, emit, cache_GetChunk, cache_SetChunk, ret,
    doFetchFullChunkData.
  destruct (chunkCache c) as [cache|] eqn:Hcache; [|discriminate].
  intros Hread. exists cache. split; [reflexivity|]. cbv zeta.
  destruct (GetChunk cache _ _) as [[hit|] cache']; cbn [fst snd].
  - injection Hread as <- <- <- <-. repeat split.
  - cbn [lookupFileId_state set_chunkCache] in Hread.
    destruct (fetchChunk _ _ _ _ _ _ _ _ _ _) as [[[[data1 [e|]] vc] w1]|] eqn:E;
      [| |discriminate]; cbn in Hread.
    + injection Hread as <- <- <- <-. repeat split.
    + injection Hread as <- <- <- <-. cbn. repeat split.
      apply fetchChunk_wire in E. destruct E as [_ E].
      rewrite (E eq_refl). unfold wire_fetches. rewrite count_events_log. cbn. lia.
Qed.

(** X5: when [readFromWholeChunkData] returns an error, the bytes it
    returns are nil, the recency slot is as it was and held another chunk,
    no read-ahead was launched, and the content cache was asked, had not
    the chunk, and was given nothing: the failure is not remembered. *)
Theorem failed_fetch_stores_nothing (c : ChunkReadAt C) (w : World Rng)
    chunkView nexts data e c' w' :
  readFromWholeChunkData' chunkView nexts c w = Returns ((data, Some e), c', w') ->
  data = []
  /\ lastChunkFileId c' = lastChunkFileId c /\ lastChunkData c' = lastChunkData c
  /\ lastChunkFileId c <> FileId chunkView
  /\ read_aheads w' = read_aheads w
  /\ exists cache,
       chunkCache c = Some cache
       /\ (GetChunk cache (FileId chunkView) (ChunkSize chunkView)).1 = None
       /\ chunkCache c'
          = Some (GetChunk cache (FileId chunkView) (ChunkSize chunkView)).2.
Proof.
  destruct (String.eqb_spec (lastChunkFileId c) (FileId chunkView)) as [Hid|Hid].
  - rewrite (readFromWholeChunkData_hit rand VolumeId policy filerClient wire)
      by exact Hid.
    discriminate.
  - rewrite (readFromWholeChunkData_miss rand VolumeId policy filerClient wire)
      by exact Hid.
    destruct (readOneWholeChunk' chunkView c w) as [[[[v [e1|]] c1] w1]|] eqn:E;
      [| |discriminate].
    + intros [= <- <- <- <-].
      pose proof (readOneWholeChunk_read_aheads _ _ _ _ _ _ E) as Hra.
      apply readOneWholeChunk_cases in E.
      destruct E as (cache & Hcache & Hslot & Hdata & Hgot). cbv zeta in Hgot.
      split; [reflexivity|]. split; [exact Hslot|]. split; [exact Hdata|].
      split; [exact Hid|]. split; [exact Hra|].
      exists cache. split; [exact Hcache|].
      destruct ((GetChunk cache (FileId chunkView) (ChunkSize chunkView)).1) as [hit|].
      * destruct Hgot as (_ & Hno & _). discriminate.
      * split; [reflexivity|exact Hgot].
    + destruct (launch_readAhead nexts _ w1) as [[[[] c2] w2]|]; discriminate.
Qed.

(** X6: [readFromWholeChunkData], called with the view that follows,
    launches one read-ahead, for that view and as the last thing it does,
    when it returns without error, the chunk was not in the recency slot
    and there is a view that follows; in every other case it launches
    none. *)
Theorem read_ahead_only_after_fetched_miss (c : ChunkReadAt C) (w : World Rng)
    chunkView nextChunkView data err c' w' :
  readFromWholeChunkData' chunkView [nextChunkView] c w = Returns ((data, err), c', w') ->
  read_aheads w' =
    (read_aheads w +
     match err, nextChunkView with
     | None, Some _ =>
         if String.eqb (lastChunkFileId c) (FileId chunkView) then 0 else 1
     | _, _ => 0
     end)%nat
  /\ (forall next, err = None -> nextChunkView = Some next ->
      lastChunkFileId c <> FileId chunkView ->
      last (trace w') = Some (EvReadAhead (FileId next))).
Proof.
  destruct (String.eqb_spec (lastChunkFileId c) (FileId chunkView)) as [Hid|Hid].
  - rewrite (readFromWholeChunkData_hit rand VolumeId policy filerClient wire)
      by exact Hid.
    intros [= <- <- <- <-]. split; [destruct nextChunkView; lia|]. intros; contradiction.
  - rewrite (readFromWholeChunkData_miss rand VolumeId policy filerClient wire)
      by exact Hid.
    destruct (readOneWholeChunk' chunkView c w) as [[[[v [e1|]] c1] w1]|] eqn:E;
      [| |discriminate];
      pose proof (readOneWholeChunk_read_aheads _ _ _ _ _ _ E) as Hra.
    + intros [= <- <- <- <-]. split; [lia|]. discriminate.
    + apply readOneWholeChunk_cases in E.
      destruct E as (cache & Hcache & _ & _ & Hgot). cbv zeta in Hgot.
      assert (Hsome : exists cache1, chunkCache c1 = Some cache1).
      { destruct ((GetChunk cache (FileId chunkView) (ChunkSize chunkView)).1).
        - destruct Hgot as (_ & _ & -> & _). eexists; reflexivity.
        - destruct Hgot as (-> & _). eexists; reflexivity. }
      destruct Hsome as [cache1 Hcache1].
      cbn [launch_readAhead]. unfold bind, get_reader, emit, ret.
      cbn [chunkCache set_lastChunk]. rewrite Hcache1.
      destruct nextChunkView as [next|].
      * intros [= <- <- <- <-]. split.
        -- unfold read_aheads in *. rewrite count_events_log. cbn. lia.
        -- intros next' _ [= <-] _. cbn. apply last_snoc.
      * intros [= <- <- <- <-]. split; [lia|]. discriminate.
Qed.


End ReadFacts.

(** ** What a read keeps *)

Section KeepFacts.
Context {C : Type} `{!ChunkCache C} {Rng : Type} (rand : RandSource Rng).
Context (VolumeId : string -> string) (policy : RetryPolicy).
Context (filerClient : FilerClient) (wire : WireFetch).

Local Abbreviation readOneWholeChunk' :=
  (readOneWholeChunk rand VolumeId policy filerClient wire).
Local Abbreviation readFromWholeChunkData' :=
  (readFromWholeChunkData rand VolumeId policy filerClient wire).
Local Abbreviation visit' := (visit rand VolumeId policy filerClient wire).
Local Abbreviation walk' := (walk rand VolumeId policy filerClient wire).
Local Abbreviation doReadAt' := (doReadAt rand VolumeId policy filerClient wire).

Lemma kept_refl (c : ChunkReadAt C) : kept c c.
Proof. repeat split; auto. Qed.

Lemma kept_trans (c1 c2 c3 : ChunkReadAt C) : kept c1 c2 -> kept c2 c3 -> kept c1 c3.
Proof.
  intros (Hv1 & Hs1 & Hl1 & Hc1) (Hv2 & Hs2 & Hl2 & Hc2).
  split; [congruence|]. split; [congruence|]. split; [auto|].
  rewrite Hc1. exact Hc2.
Qed.

Lemma readOneWholeChunk_kept chunkView (c : ChunkReadAt C) (w : World Rng) r c' w' :
  readOneWholeChunk' chunkView c w = Returns (r, c', w') -> kept c c'.
Proof.
  unfold readOneWholeChunk, bind, emit, cache_GetChunk, cache_SetChunk, ret,
    doFetchFullChunkData, fetchChunk.
  destruct (chunkCache c) as [cache|] eqn:Hcache; [|discriminate].
  destruct (GetChunk cache _ _) as [[data|] cache'].
  - intros [= <- <- <-]. unfold kept. cbn. rewrite Hcache.
    repeat split; auto; discriminate.
  - cbn [lookupFileId_state set_chunkCache].
    destruct (lookupFileId _ _ _ _ _ _ _) as [[[[urls err] vc] w1]|] eqn:E;
      [|discriminate].
    pose proof (fun v l => lookupFileId_keeps rand VolumeId policy filerClient
                             _ _ _ _ _ _ v l E) as Hkeeps.
    destruct err as [e|]; [|destruct (wire _ _ _ _)]; cbn;
      intros [= <- <- <-]; unfold kept; cbn; rewrite Hcache;
      repeat split; auto; discriminate.
Qed.

Lemma readFromWholeChunkData_kept chunkView nexts (c : ChunkReadAt C) (w : World Rng)
    r c' w' :
  readFromWholeChunkData' chunkView nexts c w = Returns (r, c', w') -> kept c c'.
Proof.
  destruct (String.eqb_spec (lastChunkFileId c) (FileId chunkView)) as [Hid|Hid].
  - rewrite (readFromWholeChunkData_hit rand VolumeId policy filerClient wire)
      by exact Hid.
    intros [= <- <- <-]. apply kept_refl.
  - rewrite (readFromWholeChunkData_miss rand VolumeId policy filerClient wire)
      by exact Hid.
    destruct (readOneWholeChunk' chunkView c w) as [[[[v [e|]] c1] w1]|] eqn:E;
      [| |discriminate]; apply readOneWholeChunk_kept in E.
    + intros [= <- <- <-]. exact E.
    + destruct (launch_readAhead nexts _ w1) as [[[[] c2] w2]|] eqn:El; [|discriminate].
      apply launch_readAhead_coordinator in El. destruct El as [-> _].
      intros [= <- <- <-]. exact E.
Qed.

Lemma visit_kept offset chunk nextChunk k (c : ChunkReadAt C) (w : World Rng) r c' w' :
  visit' offset chunk nextChunk k c w = Returns (r, c', w') -> kept c c'.
Proof.
  assert (Hview : forall k0,
             read_view rand VolumeId policy filerClient wire offset chunk nextChunk k0 c w
               = Returns (r, c', w') -> kept c c').
  { intros k0. unfold read_view.
    destruct (_ >=? _); [intros [= <- <- <-]; apply kept_refl|].
    unfold bind.
    destruct (readFromWholeChunkData' chunk [nextChunk] c w)
      as [[[[buffer [e|]] c1] w1]|] eqn:E; [| |discriminate];
      apply readFromWholeChunkData_kept in E.
    - intros [= <- <- <-]. exact E.
    - unfold copy_chunk.
      destruct (negb _); [discriminate|]. destruct (negb _); [discriminate|].
      destruct (copy_into _ _ _ _). unfold ret. intros [= <- <- <-]. exact E. }
  unfold visit.
  destruct (_ <=? _); [intros [= <- <- <-]; apply kept_refl|].
  destruct (_ <? _); [|apply Hview].
  destruct (_ <=? _); [intros [= <- <- <-]; apply kept_refl|apply Hview].
Qed.

Lemma walk_kept offset views k (c : ChunkReadAt C) (w : World Rng) r c' w' :
  walk' offset views k c w = Returns (r, c', w') -> kept c c'.
Proof.
  revert k c w. induction views as [|chunk rest IH]; intros k c w.
  - intros [= <- <- <-]. apply kept_refl.
  - rewrite (walk_cons rand VolumeId policy filerClient wire).
    destruct (visit' offset chunk (head rest) k c w) as [[[[k1|e] c1] w1]|] eqn:E;
      [| |discriminate]; apply visit_kept in E.
    + intros Hwalk. apply IH in Hwalk. eapply kept_trans; eassumption.
    + intros [= <- <- <-]. exact E.
Qed.

(** X8: a read that returns has kept the views and the size of the file,
    every location its resolver knew, and its content cache if it had one
    (and has none if it had none): what the properties above ask of the
    reader holds again for the next read. *)
Theorem read_keeps_views_size_and_locations (c : ChunkReadAt C) (w : World Rng)
    (p : bytes) (offset : Z) r c' w' :
  doReadAt' p offset c w = Returns (r, c', w') ->
  chunkViews c' = chunkViews c /\ fileSize c' = fileSize c
  /\ (forall vid l, lookupFileId_state c !! vid = Some l ->
      lookupFileId_state c' !! vid = Some l)
  /\ (chunkCache c = None <-> chunkCache c' = None).
Proof.
  unfold doReadAt, bind, get_reader.
  destruct (walk' offset (chunkViews c) _ c w) as [[[e c1] w1]|] eqn:Hwalk;
    [|discriminate].
  apply walk_kept in Hwalk.
  destruct e as [k|k e]; unfold ret; intros [= <- <- <-]; exact Hwalk.
Qed.

End KeepFacts.

(** ** The cache of the resolver *)

Section ResolverCache.
Context {Rng : Type} (rand : RandSource Rng).
Context (VolumeId : string -> string) (policy : RetryPolicy).
Context (filerClient : FilerClient).

Lemma lookup_job_outcome fileId vid (s : lookup_state Rng) err s' :
  lookup_job filerClient fileId vid s = (err, s') ->
  rng (ls_world s') = rng (ls_world s)
  /\ match err with
     | Some _ => ls_cache s' = ls_cache s
     | None => exists l, ls_locations s' = Some l /\ ls_cache s' = <[vid:=l]> (ls_cache s)
     end.
Proof.
  unfold lookup_job.
  destruct (LookupVolume filerClient _ vid) as [e|m].
  - intros [= <- <-]. split; reflexivity.
  - destruct (m !! vid) as [l|].
    + destruct (length (locations_list l) =? 0)%nat.
      * intros [= <- <-]. split; reflexivity.
      * intros [= <- <-]. split; [reflexivity|]. exists l. split; reflexivity.
    + intros [= <- <-]. split; reflexivity.
Qed.

Lemma retry_loop_outcome fileId vid attempts (s : lookup_state Rng) err s' :
  retry_loop policy attempts (lookup_job filerClient fileId vid) s = (err, s') ->
  rng (ls_world s') = rng (ls_world s)
  /\ match err with
     | Some _ => ls_cache s' = ls_cache s
     | None => exists l, ls_locations s' = Some l /\ ls_cache s' = <[vid:=l]> (ls_cache s)
     end.
Proof.
  revert s. induction attempts as [|k IH]; intros s; cbn [retry_loop];
    destruct (lookup_job filerClient fileId vid s) as [[e|] s1] eqn:Ejob;
    apply lookup_job_outcome in Ejob; destruct Ejob as [Hrng Hjob].
  - intros [= <- <-]. split; assumption.
  - intros [= <- <-]. split; assumption.
  - destruct (retryable policy e).
    + intros Hloop. apply IH in Hloop. destruct Hloop as [Hrng' Hloop].
      rewrite Hrng', Hrng. split; [reflexivity|]. rewrite <- Hjob. exact Hloop.
    + intros [= <- <-]. split; assumption.
  - intros [= <- <-]. split; assumption.
Qed.

(** X9: what a call of the resolver does to its cache. When it returns
    an error, it returns no URL, has drawn no random number and leaves the
    cache as it was, the volume being absent from it: the failure is not
    remembered. When it returns without error, the cache is the old one
    with the locations of the volume set. When the volume was in the cache,
    the call succeeds and changes neither the cache nor the trace. *)
Theorem resolve_changes_cache_only_on_success fileId vc (w : World Rng) urls err vc' w' :
  lookupFileId rand VolumeId policy filerClient fileId vc w
    = Returns (urls, err, vc', w') ->
  (forall e, err = Some e ->
     urls = [] /\ vc' = vc /\ rng w' = rng w /\ vc !! VolumeId fileId = None)
  /\ (err = None -> exists l, vc' = <[VolumeId fileId := l]> vc)
  /\ (forall l, vc !! VolumeId fileId = Some l ->
      err = None /\ vc' = vc /\ trace w' = trace w).
Proof.
  unfold lookupFileId.
  destruct (vc !! VolumeId fileId) as [l0|] eqn:Hvc.
  - cbn [ls_locations ls_cache ls_world].
    destruct (shuffle rand _ _) as [[t g]|]; [|discriminate].
    intros [= <- <- <- <-]. split; [discriminate|]. split.
    + intros _. exists l0. symmetry. apply insert_id. exact Hvc.
    + intros l _. repeat split.
  - unfold Retry.
    destruct (retry_loop _ _ _ _) as [[e|] s] eqn:Eloop;
      apply retry_loop_outcome in Eloop; destruct Eloop as [Hrng Hloop];
      cbn [ls_cache ls_world] in *.
    + intros [= <- <- <- <-]. split; [|split; discriminate].
      intros e' _. repeat split; assumption.
    + destruct Hloop as (l & Hloc & Hcache). rewrite Hloc.
      destruct (shuffle rand _ _) as [[t g]|]; [|discriminate].
      intros [= <- <- <- <-]. split; [discriminate|]. split; [|discriminate].
      intros _. exists l. exact Hcache.
Qed.

End ResolverCache.

(** ** When a read panics *)

Section SafetyFacts.
Context {C : Type} `{!ChunkCache C} {Rng : Type} (rand : RandSource Rng).
Context (VolumeId : string -> string) (policy : RetryPolicy).
Context (filerClient : FilerClient) (wire : WireFetch).
Context (Hrand : Intn_in_range rand).

Local Abbreviation readOneWholeChunk' :=
  (readOneWholeChunk rand VolumeId policy filerClient wire).
Local Abbreviation readFromWholeChunkData' :=
  (readFromWholeChunkData rand VolumeId policy filerClient wire).
Local Abbreviation visit' := (visit rand VolumeId policy filerClient wire).
Local Abbreviation walk' := (walk rand VolumeId policy filerClient wire).
Local Abbreviation doReadAt' := (doReadAt rand VolumeId policy filerClient wire).

Lemma lookupFileId_returns fileId vc (w : World Rng) :
  exists r, lookupFileId rand VolumeId policy filerClient fileId vc w = Returns r.
Proof.
  destruct (vc !! VolumeId fileId) as [l|] eqn:Hvc.
  - destruct (lookupFileId_hit rand VolumeId policy filerClient fileId vc w l Hrand Hvc)
      as (urls & g & ->).
    eexists. reflexivity.
  - unfold lookupFileId. rewrite Hvc. unfold Retry.
    destruct (retry_loop _ _ _ _) as [[e|] s] eqn:Eloop.
    + eexists. reflexivity.
    + apply retry_loop_outcome in Eloop. destruct Eloop as (_ & l & -> & _).
      destruct (shuffle_as_draws rand (rng (ls_world s))
                  (map (targetUrl filerClient fileId) (locations_list l)) Hrand)
        as (_ & g & ->).
      eexists. reflexivity.
Qed.

Lemma readOneWholeChunk_returns chunkView (c : ChunkReadAt C) (w : World Rng) :
  chunkCache c <> None -> exists r, readOneWholeChunk' chunkView c w = Returns r.
Proof.
  intros Hcache.
  unfold readOneWholeChunk, bind, emit, cache_GetChunk, cache_SetChunk, ret,
    doFetchFullChunkData, fetchChunk.
  destruct (chunkCache c) as [cache|]; [|contradiction].
  destruct (GetChunk cache _ _) as [[data|] cache']; [eexists; reflexivity|].
  cbn [lookupFileId_state set_chunkCache].
  destruct (lookupFileId_returns (FileId chunkView) (lookupFileId_state c)
              (log (EvCoordinator (FileId chunkView)) w)) as [[[[urls [e|]] vc] w1] ->].
  - eexists. reflexivity.
  - destruct (wire _ _ _ _); cbn; eexists; reflexivity.
Qed.

Lemma readFromWholeChunkData_returns chunkView nexts (c : ChunkReadAt C) (w : World Rng) :
  chunkCache c <> None ->
  exists r, readFromWholeChunkData' chunkView nexts c w = Returns r.
Proof.
  intros Hcache.
  destruct (String.eqb_spec (lastChunkFileId c) (FileId chunkView)) as [Hid|Hid].
  - rewrite (readFromWholeChunkData_hit rand VolumeId policy filerClient wire)
      by exact Hid.
    eexists. reflexivity.
  - rewrite (readFromWholeChunkData_miss rand VolumeId policy filerClient wire)
      by exact Hid.
    destruct (readOneWholeChunk_returns chunkView c w Hcache)
      as [[[[v [e|]] c1] w1] ->].
    + eexists. reflexivity.
    + destruct (launch_readAhead_returns nexts (set_lastChunk c1 (FileId chunkView) v) w1)
        as [w2 ->].
      eexists. reflexivity.
Qed.

Lemma visit_panic offset chunk nextChunk k (c : ChunkReadAt C) (w : World Rng) why :
  chunkCache c <> None ->
  visit' offset chunk nextChunk k c w = Panics why -> is_slice_panic why = true.
Proof.
  intros Hcache.
  assert (Hview : forall k0,
             read_view rand VolumeId policy filerClient wire offset chunk nextChunk k0 c w
               = Panics why -> is_slice_panic why = true).
  { intros k0. unfold read_view.
    destruct (_ >=? _); [discriminate|]. unfold bind.
    destruct (readFromWholeChunkData_returns chunk [nextChunk] c w Hcache)
      as [[[[buffer [e|]] c1] w1] ->]; [discriminate|].
    unfold copy_chunk.
    destruct (negb _); [intros [= <-]; reflexivity|].
    destruct (negb _); [intros [= <-]; reflexivity|].
    destruct (copy_into _ _ _ _). discriminate. }
  unfold visit.
  destruct (_ <=? _); [discriminate|].
  destruct (_ <? _); [|apply Hview].
  destruct (_ <=? _); [discriminate|apply Hview].
Qed.

Lemma walk_panic offset views k (c : ChunkReadAt C) (w : World Rng) why :
  chunkCache c <> None ->
  walk' offset views k c w = Panics why -> is_slice_panic why = true.
Proof.
  revert k c w. induction views as [|chunk rest IH]; intros k c w Hcache.
  - discriminate.
  - rewrite (walk_cons rand VolumeId policy filerClient wire).
    destruct (visit' offset chunk (head rest) k c w) as [[[[k1|e] c1] w1]|why1] eqn:E.
    + apply visit_kept in E. destruct E as (_ & _ & _ & Hnil).
      apply IH. intros Hnone. apply Hcache, Hnil, Hnone.
    + discriminate.
    + intros [= <-]. eapply visit_panic; eassumption.
Qed.

(** X17: with [rand.Intn] within its contract and a content cache, a read
    of a window and views within the range of [int64] panics in one case
    only: the slice of the bytes of a view of the reader is out of range,
    the bytes obtained for the view being fewer than [Offset + Size]. No
    index of the shuffle, no missing locations, no slice of the buffer
    makes it panic. *)
Theorem read_panics_only_on_short_chunk (c : ChunkReadAt C) (w : World Rng)
    (p : bytes) (offset : Z) why :
  window_in_range p offset -> reader_in_range c -> chunkCache c <> None ->
  doReadAt' p offset c w = Panics why ->
  exists chunk buffer_len,
    why = SrcSliceOutOfRange chunk buffer_len
    /\ In chunk (chunkViews c)
    /\ buffer_len < Offset chunk + Size chunk.
Proof.
  intros Hw Hc Hcache Hread.
  pose proof (doReadAt_ok rand VolumeId policy filerClient wire p offset c w Hw Hc) as Hok.
  rewrite Hread in Hok. destruct Hok as [Hdst Hsrc].
  assert (Hslice : is_slice_panic why = true).
  { unfold doReadAt, bind, get_reader in Hread.
    destruct (walk' offset (chunkViews c) _ c w) as [[[[k|k e] c1] w1]|why1] eqn:Hwalk;
      [discriminate|discriminate|].
    injection Hread as <-. eapply walk_panic; eassumption. }
  destruct why as [| | | |chunk buffer_len]; try discriminate; [contradiction|].
  exists chunk, buffer_len. split; [reflexivity|]. apply Hsrc. reflexivity.
Qed.

End SafetyFacts.

(** * Properties of the directory handles *)

Lemma uint64_wrap_succ_ne z : Mount.uint64_wrap (z + 1) <> z.
Proof.
  unfold Mount.uint64_wrap. intros Heq.
  pose proof (Z.div_mod (z + 1) (2 ^ 64)) as Hdm.
  rewrite Heq in Hdm. change (2 ^ 64) with 18446744073709551616 in Hdm. lia.
Qed.

Section HandleFacts.
Context {I MC : Type}.

(** X10: the handle [AcquireDirectoryHandle] returns is the one
    [GetDirectoryHandle] finds under the identifier returned, without
    changing the table; it is not finished and has no last entry name; the
    sequencer has moved off the identifier; the handles under other
    identifiers are as they were. *)
Theorem acquired_handle_is_found (wfs : Mount.WFS I MC) :
  let '(dhid, dh, wfs1) := Mount.AcquireDirectoryHandle wfs in
  Mount.GetDirectoryHandle dhid wfs1 = (dh, wfs1)
  /\ Mount.isFinished dh = false /\ Mount.lastEntryName dh = ""
  /\ Mount.nextFh wfs1 <> dhid
  /\ forall other, other <> dhid ->
       Mount.dir2inode wfs1 !! other = Mount.dir2inode wfs !! other.
Proof.
  unfold Mount.AcquireDirectoryHandle, Mount.GetDirectoryHandle. cbv zeta.
  cbn [Mount.dir2inode Mount.nextFh].
  rewrite lookup_insert_eq. repeat split.
  - apply uint64_wrap_succ_ne.
  - intros other Hother. apply lookup_insert_ne. congruence.
Qed.

(** X11: [GetDirectoryHandle] always answers: for an identifier the table
    does not hold it makes a new handle and keeps it in the table; asked
    again, it returns the same handle and changes nothing; a handle the
    table holds is returned with the table unchanged. The sequencer and the
    handles under other identifiers are as they were. *)
Theorem get_handle_creates_and_repeats (dhid : Z) (wfs : Mount.WFS I MC) :
  let '(dh, wfs1) := Mount.GetDirectoryHandle dhid wfs in
  Mount.dir2inode wfs1 !! dhid = Some dh
  /\ Mount.GetDirectoryHandle dhid wfs1 = (dh, wfs1)
  /\ (Mount.dir2inode wfs !! dhid = None -> dh = Mount.new_handle)
  /\ (forall known, Mount.dir2inode wfs !! dhid = Some known -> dh = known /\ wfs1 = wfs)
  /\ Mount.nextFh wfs1 = Mount.nextFh wfs
  /\ forall other, other <> dhid ->
       Mount.dir2inode wfs1 !! other = Mount.dir2inode wfs !! other.
Proof.
  unfold Mount.GetDirectoryHandle.
  destruct (Mount.dir2inode wfs !! dhid) as [dh|] eqn:Hfound.
  - rewrite Hfound. repeat split; congruence.
  - cbn [Mount.set_dir2inode Mount.dir2inode Mount.nextFh].
    rewrite lookup_insert_eq. repeat split; try discriminate.
    intros other Hother. apply lookup_insert_ne. congruence.
Qed.

(** X12: after [ReleaseDirectoryHandle] the table does not hold the
    identifier, and [GetDirectoryHandle] answers it with a new handle: not
    finished, no last entry name, whatever the released one had reached.
    The handles under other identifiers and the sequencer are as they were,
    and the release of an identifier the table does not hold changes
    nothing. *)
Theorem released_handle_starts_fresh (dhid : Z) (wfs : Mount.WFS I MC) :
  let wfs1 := Mount.ReleaseDirectoryHandle dhid wfs in
  Mount.dir2inode wfs1 !! dhid = None
  /\ fst (Mount.GetDirectoryHandle dhid wfs1) = Mount.new_handle
  /\ (forall other, other <> dhid ->
      Mount.dir2inode wfs1 !! other = Mount.dir2inode wfs !! other)
  /\ Mount.nextFh wfs1 = Mount.nextFh wfs
  /\ (Mount.dir2inode wfs !! dhid = None -> wfs1 = wfs).
Proof.
  cbv zeta. unfold Mount.ReleaseDirectoryHandle, Mount.GetDirectoryHandle.
  cbn [Mount.set_dir2inode Mount.dir2inode Mount.nextFh].
  rewrite lookup_delete_eq. repeat split.
  - intros other Hother. apply lookup_delete_ne. congruence.
  - intros Hnone. rewrite delete_id by exact Hnone. destruct wfs; reflexivity.
Qed.

(** The identifiers a sequence of calls acquires are the successive values
    of the sequencer. *)
Lemma run_calls_ids calls (wfs : Mount.WFS I MC) :
  0 <= Mount.nextFh wfs < 2 ^ 64 ->
  (Mount.run_calls calls wfs).1
    = map (fun j => (Mount.nextFh wfs + Z.of_nat j) mod 2 ^ 64)
        (seq 0 (length (Mount.run_calls calls wfs).1)).
Proof.
  revert wfs. induction calls as [|[|dhid|dhid] rest IH]; intros wfs Hrange.
  - reflexivity.
  - cbn [Mount.run_calls]. unfold Mount.AcquireDirectoryHandle. cbv zeta.
    set (wfs1 := Mount.mkWFS _ _ _ _).
    specialize (IH wfs1).
    destruct (Mount.run_calls rest wfs1) as [ids wfs2]. cbn [fst] in *.
    cbn [length seq map]. f_equal.
    + rewrite Z.add_0_r. symmetry. apply Z.mod_small. exact Hrange.
    + rewrite IH at 1 by (apply Z.mod_pos_bound; reflexivity).
      rewrite <- seq_shift, map_map. apply map_ext. intros j.
      subst wfs1. cbn [Mount.nextFh]. unfold Mount.uint64_wrap.
      rewrite Zplus_mod_idemp_l. f_equal. lia.
  - cbn [Mount.run_calls].
    assert (Hsame : Mount.nextFh (Mount.GetDirectoryHandle dhid wfs).2 = Mount.nextFh wfs).
    { unfold Mount.GetDirectoryHandle.
      destruct (Mount.dir2inode wfs !! dhid); reflexivity. }
    specialize (IH (Mount.GetDirectoryHandle dhid wfs).2).
    rewrite Hsame in IH. exact (IH Hrange).
  - cbn [Mount.run_calls]. exact (IH (Mount.ReleaseDirectoryHandle dhid wfs) Hrange).
Qed.

(** X13: over any sequence of calls of [AcquireDirectoryHandle],
    [GetDirectoryHandle] and [ReleaseDirectoryHandle], started with the
    sequencer in the range of [uint64], the identifiers acquired are
    pairwise different as long as there are at most [2^64] of them. *)
Theorem acquired_ids_never_repeat calls (wfs : Mount.WFS I MC) :
  0 <= Mount.nextFh wfs < 2 ^ 64 ->
  Z.of_nat (length (Mount.run_calls calls wfs).1) <= 2 ^ 64 ->
  NoDup (Mount.run_calls calls wfs).1.
Proof.
  intros Hrange Hcount. rewrite run_calls_ids by exact Hrange.
  apply NoDup_fmap_2_strong; [|apply NoDup_seq].
  intros j1 j2 Hj1 Hj2 Heq.
  apply elem_of_seq in Hj1, Hj2.
  pose proof (Z.div_mod (Mount.nextFh wfs + Z.of_nat j1) (2 ^ 64)) as H1.
  pose proof (Z.div_mod (Mount.nextFh wfs + Z.of_nat j2) (2 ^ 64)) as H2.
  rewrite Heq in H1.
  change (2 ^ 64) with 18446744073709551616 in *. lia.
Qed.

End HandleFacts.

(** ** Directory reads *)

Section DirectoryFacts.
Context {I MC Entry Out : Type}.
Context (HasInode : I -> Z -> bool).
Context (GetPath : I -> Z -> string) (GetInode : I -> string -> Z).
Context (DirAndName : string -> string * string) (Child : string -> string -> string).
Context (toSystemMode : Z -> Z).
Context (Entry_Name : Entry -> string) (Entry_Mode : Entry -> Z).
Context (AddDirEntry : Out -> Mount.DirEntry -> bool * Out).
Context (AddDirLookupEntry : Out -> Mount.DirEntry -> bool * Out).
Context (outputFilerEntry : Out -> Z -> Entry -> Out).
Context (EnsureVisited : MC -> string -> bool * MC).
Context (ListDirectoryEntries :
           forall S : Type, MC -> string -> string -> bool -> Z ->
                            (Entry -> S -> bool * S) -> S -> bool * S * MC).

Local Abbreviation doReadDirectory' :=
  (Mount.doReadDirectory GetPath GetInode DirAndName Child toSystemMode
     Entry_Name Entry_Mode AddDirEntry AddDirLookupEntry outputFilerEntry
     EnsureVisited ListDirectoryEntries).

(** X14: [OpenDir] for an inode the inode table does not know returns
    [ENOENT] and changes neither the answer nor the mount. For an inode it
    knows it returns [OK], the handle in the answer is the value of the
    sequencer, a new handle is in the table under it, and when the table
    held nothing under it [ReleaseDir] of that handle gives the table
    back as it was before [OpenDir]. *)
Theorem open_dir_allocates_for_known_inodes input out (wfs : Mount.WFS I MC) :
  let '(status, out1, wfs1) := Mount.OpenDir HasInode input out wfs in
  if HasInode (Mount.inodeToPath wfs) (Mount.OpenIn_NodeId input)
  then status = Mount.OK
       /\ Mount.OpenOut_Fh out1 = Mount.nextFh wfs
       /\ Mount.dir2inode wfs1 !! Mount.OpenOut_Fh out1 = Some Mount.new_handle
       /\ (Mount.dir2inode wfs !! Mount.nextFh wfs = None ->
           Mount.dir2inode
             (Mount.ReleaseDir (Mount.mkReleaseIn (Mount.OpenOut_Fh out1)) wfs1)
           = Mount.dir2inode wfs)
  else status = Mount.ENOENT /\ out1 = out /\ wfs1 = wfs.
Proof.
  unfold Mount.OpenDir.
  destruct (HasInode (Mount.inodeToPath wfs) (Mount.OpenIn_NodeId input)); cbn [negb].
  - unfold Mount.AcquireDirectoryHandle, Mount.ReleaseDir, Mount.ReleaseDirectoryHandle.
    cbv zeta.
    cbn [Mount.OpenOut_Fh Mount.ReleaseIn_Fh Mount.dir2inode Mount.set_dir2inode].
    rewrite lookup_insert_eq. repeat split.
    intros Hfree. rewrite delete_insert_eq. apply delete_id. exact Hfree.
  - repeat split.
Qed.

Lemma GetDirectoryHandle_found dhid (wfs : Mount.WFS I MC) :
  Mount.dir2inode (Mount.GetDirectoryHandle dhid wfs).2 !! dhid
    = Some (Mount.GetDirectoryHandle dhid wfs).1.
Proof.
  unfold Mount.GetDirectoryHandle.
  destruct (Mount.dir2inode wfs !! dhid) as [dh|] eqn:Hfound; cbn.
  - exact Hfound.
  - apply lookup_insert_eq.
Qed.

(** A read on a finished handle returns at once. *)
Lemma doReadDirectory_finished input out isPlusMode (wfs : Mount.WFS I MC) dh :
  Mount.dir2inode wfs !! Mount.Fh input = Some dh -> Mount.isFinished dh = true ->
  doReadDirectory' input out isPlusMode wfs = (Mount.OK, out, wfs).
Proof.
  intros Hfound Hfinished. unfold Mount.doReadDirectory, Mount.GetDirectoryHandle.
  rewrite Hfound, Hfinished. reflexivity.
Qed.

(** X15: after a directory read that returns [OK] the table holds the
    handle of the request; the handle is finished when its counter is
    below the [Length] of the request; and once the handle is finished,
    every read on it, in either mode and whatever the rest of the request,
    returns [OK] and leaves the output and the mount as they are: nothing
    more is listed. *)
Theorem finished_handle_lists_nothing input out isPlusMode (wfs : Mount.WFS I MC)
    out1 wfs1 :
  doReadDirectory' input out isPlusMode wfs = (Mount.OK, out1, wfs1) ->
  exists dh1,
    Mount.dir2inode wfs1 !! Mount.Fh input = Some dh1
    /\ (Mount.counter dh1 < Mount.Length input -> Mount.isFinished dh1 = true)
    /\ (Mount.isFinished dh1 = true ->
        forall input2 out2 isPlusMode2, Mount.Fh input2 = Mount.Fh input ->
          doReadDirectory' input2 out2 isPlusMode2 wfs1 = (Mount.OK, out2, wfs1)).
Proof.
  intros Hread.
  assert (Hdh : exists dh1,
             Mount.dir2inode wfs1 !! Mount.Fh input = Some dh1
             /\ (Mount.counter dh1 < Mount.Length input -> Mount.isFinished dh1 = true)).
  { unfold Mount.doReadDirectory in Hread.
    pose proof (GetDirectoryHandle_found (Mount.Fh input) wfs) as Hfound.
    destruct (Mount.GetDirectoryHandle (Mount.Fh input) wfs) as [dh wfs0].
    cbn [fst snd] in Hfound.
    destruct (Mount.isFinished dh) eqn:Hfin.
    - injection Hread as <- <-. exists dh. split; [exact Hfound|]. intros _. exact Hfin.
    - destruct (if _ && _ then _ else _) as [dh2 out2].
      destruct (EnsureVisited _ _) as [[|] mc]; [discriminate|].
      destruct (ListDirectoryEntries _ _ _ _ _ _ _ _) as [[[|] [dh3 out3]] mc3];
        [discriminate|].
      injection Hread as <- <-. cbn [Mount.dir2inode].
      rewrite lookup_insert_eq. eexists. split; [reflexivity|].
      destruct (Z.ltb_spec (Mount.counter dh3) (Mount.Length input)) as [Hlt|Hge].
      + intros _. reflexivity.
      + cbn. lia. }
  destruct Hdh as (dh1 & Hfound & Hcount).
  exists dh1. split; [exact Hfound|]. split; [exact Hcount|].
  intros Hfin input2 out2 isPlusMode2 Hfh.
  apply (doReadDirectory_finished input2 out2 isPlusMode2 wfs1 dh1); [|exact Hfin].
  rewrite Hfh. exact Hfound.
Qed.


End DirectoryFacts.

(** * The further properties at work *)

Lemma gap_reader_in_range : reader_in_range gap_reader.
Proof.
  split; [|vm_compute; split; discriminate].
  repeat constructor; vm_compute; discriminate.
Qed.

Lemma gap_views_ordered : views_ordered (chunkViews gap_reader).
Proof. repeat constructor; vm_compute; discriminate. Qed.

(** The read of [150, 260) of the 200-byte file: the 50 bytes of the
    window that are inside the file are reported. *)
Lemma read_count_is_window_cut_at_file_size_witness :
  exists q n err c' w',
    window_in_range (replicate 110 byte_b) 150
    /\ reader_in_range gap_reader
    /\ views_within (fileSize gap_reader) (chunkViews gap_reader)
    /\ doReadAt counter_rand whole_id no_retry two_nodes wire_a
         (replicate 110 byte_b) 150 gap_reader world0 = Returns ((q, n, err), c', w')
    /\ (forall e, err <> Some (Failed e))
    /\ n = window_in_file (replicate 110 byte_b) 150 (fileSize gap_reader)
    /\ n = 50.
Proof.
  eexists _, _, _, _, _.
  assert (Hw : window_in_range (replicate 110 byte_b) 150)
    by (vm_compute; split; discriminate).
  assert (Hin : views_within (fileSize gap_reader) (chunkViews gap_reader))
    by (repeat constructor; vm_compute; discriminate).
  split; [exact Hw|]. split; [exact gap_reader_in_range|]. split; [exact Hin|].
  match goal with
  | |- ?A /\ ?B /\ _ =>
      assert (Hread : A) by (vm_compute; reflexivity);
      assert (Herr : B) by (intros e; discriminate)
  end.
  split; [exact Hread|]. split; [exact Herr|]. split; [|reflexivity].
  exact (proj2 (read_count_is_window_cut_at_file_size counter_rand whole_id no_retry
                  two_nodes wire_a gap_reader world0 (replicate 110 byte_b) 150
                  _ _ _ _ _ Hw gap_reader_in_range Hin Hread) Herr).
Defined.

(** The read of [90, 160): the position 20 of the buffer, file offset 110,
    is in the gap between the views and keeps the byte it held. *)
Lemma read_writes_only_inside_views_witness :
  exists q n err c' w',
    window_in_range (replicate 70 byte_b) 90
    /\ reader_in_range gap_reader
    /\ doReadAt counter_rand whole_id no_retry two_nodes wire_a
         (replicate 70 byte_b) 90 gap_reader world0 = Returns ((q, n, err), c', w')
    /\ Forall (fun v => ~ covers v (90 + Z.of_nat 20)) (chunkViews gap_reader)
    /\ q !! 20%nat = replicate 70 byte_b !! 20%nat.
Proof.
  eexists _, _, _, _, _.
  assert (Hw : window_in_range (replicate 70 byte_b) 90)
    by (vm_compute; split; discriminate).
  assert (Hout : Forall (fun v => ~ covers v (90 + Z.of_nat 20)) (chunkViews gap_reader))
    by (repeat constructor; unfold covers; cbn; lia).
  split; [exact Hw|]. split; [exact gap_reader_in_range|].
  match goal with
  | |- ?A /\ _ => assert (Hread : A) by (vm_compute; reflexivity)
  end.
  split; [exact Hread|]. split; [exact Hout|].
  exact (read_writes_only_inside_views counter_rand whole_id no_retry two_nodes wire_a
           gap_reader world0 (replicate 70 byte_b) 90 _ _ _ _ _
           Hw gap_reader_in_range Hread 20%nat Hout).
Defined.

(** The read of [20, 30), inside the first view: the ten bytes are those
    of the chunk. *)
Lemma read_inside_view_returns_chunk_bytes_witness :
  exists buffer c1 w1,
    chunkViews gap_reader = [] ++ view "3,01" 0 100 :: [view "4,02" 150 50]
    /\ views_ordered (chunkViews gap_reader)
    /\ reader_in_range gap_reader
    /\ window_in_range (replicate 10 byte_b) 20
    /\ window_inside (replicate 10 byte_b) 20 (view "3,01" 0 100)
    /\ 0 < len (replicate 10 byte_b)
    /\ readFromWholeChunkData counter_rand whole_id no_retry two_nodes wire_a
         (view "3,01" 0 100) [head [view "4,02" 150 50]] gap_reader world0
       = Returns ((buffer, None), c1, w1)
    /\ 20 - LogicOffset (view "3,01" 0 100) + Offset (view "3,01" 0 100)
       + len (replicate 10 byte_b) <= len buffer
    /\ doReadAt counter_rand whole_id no_retry two_nodes wire_a
         (replicate 10 byte_b) 20 gap_reader world0
       = Returns ((replicate 10 byte_a, 10, None), c1, w1).
Proof.
  eexists _, _, _.
  assert (Hw : window_in_range (replicate 10 byte_b) 20)
    by (vm_compute; split; discriminate).
  assert (Hin : window_inside (replicate 10 byte_b) 20 (view "3,01" 0 100))
    by (vm_compute; split; discriminate).
  assert (Hpos : 0 < len (replicate 10 byte_b)) by reflexivity.
  split; [reflexivity|]. split; [exact gap_views_ordered|].
  split; [exact gap_reader_in_range|]. split; [exact Hw|]. split; [exact Hin|].
  split; [exact Hpos|].
  match goal with
  | |- ?A /\ ?B /\ _ =>
      assert (Hfetch : A) by (vm_compute; reflexivity);
      assert (Hlong : B) by (vm_compute; discriminate)
  end.
  split; [exact Hfetch|]. split; [exact Hlong|].
  exact (read_inside_view_returns_chunk_bytes counter_rand whole_id no_retry two_nodes
           wire_a gap_reader world0 (replicate 10 byte_b) 20
           [] (view "3,01" 0 100) [view "4,02" 150 50] _ _ _
           eq_refl gap_views_ordered gap_reader_in_range Hw Hin Hpos Hfetch Hlong).
Defined.


(** The first view asked for when every wire fetch fails. *)
Lemma failed_fetch_stores_nothing_witness :
  exists data e c' w',
    readFromWholeChunkData counter_rand whole_id no_retry two_nodes wire_down
      (view "3,01" 0 100) [Some (view "4,02" 150 50)] gap_reader world0
    = Returns ((data, Some e), c', w')
    /\ data = []
    /\ lastChunkFileId c' = lastChunkFileId gap_reader
    /\ lastChunkData c' = lastChunkData gap_reader
    /\ lastChunkFileId gap_reader <> FileId (view "3,01" 0 100)
    /\ read_aheads w' = read_aheads world0.
Proof.
  eexists _, _, _, _.
  match goal with
  | |- ?A /\ _ => assert (Hfetch : A) by (vm_compute; reflexivity)
  end.
  split; [exact Hfetch|].
  pose proof (failed_fetch_stores_nothing counter_rand whole_id no_retry two_nodes
                wire_down gap_reader world0 (view "3,01" 0 100)
                [Some (view "4,02" 150 50)] _ _ _ _ Hfetch)
    as (Hnil & Hid & Hdata & Hmiss & Hra & _).
  split; [exact Hnil|]. split; [exact Hid|]. split; [exact Hdata|].
  split; [exact Hmiss|exact Hra].
Defined.

(** The first view fetched, the second one following: one read-ahead, for
    the second view. *)
Lemma read_ahead_only_after_fetched_miss_witness :
  exists data c' w',
    readFromWholeChunkData counter_rand whole_id no_retry two_nodes wire_a
      (view "3,01" 0 100) [Some (view "4,02" 150 50)] gap_reader world0
    = Returns ((data, None), c', w')
    /\ read_aheads w' = (read_aheads world0 + 1)%nat
    /\ last (trace w') = Some (EvReadAhead "4,02").
Proof.
  eexists _, _, _.
  match goal with
  | |- ?A /\ _ => assert (Hfetch : A) by (vm_compute; reflexivity)
  end.
  split; [exact Hfetch|].
  assert (Hmiss : lastChunkFileId gap_reader <> FileId (view "3,01" 0 100))
    by (vm_compute; discriminate).
  pose proof (read_ahead_only_after_fetched_miss counter_rand whole_id no_retry
                two_nodes wire_a gap_reader world0 (view "3,01" 0 100)
                (Some (view "4,02" 150 50)) _ _ _ _ Hfetch) as [Hcount Hlast].
  split; [exact Hcount|].
  exact (Hlast (view "4,02" 150 50) eq_refl eq_refl Hmiss).
Defined.



(** A resolve when no location is found for the volume. *)
Lemma resolve_changes_cache_only_on_success_witness :
  exists urls e vc' w',
    lookupFileId counter_rand first_char no_retry no_nodes "3,01" LookupFn_new world0
      = Returns (urls, Some e, vc', w')
    /\ urls = [] /\ vc' = LookupFn_new /\ rng w' = rng world0
    /\ LookupFn_new !! first_char "3,01" = None.
Proof.
  eexists _, _, _, _.
  match goal with
  | |- ?A /\ _ => assert (Hcall : A) by (vm_compute; reflexivity)
  end.
  split; [exact Hcall|].
  exact (proj1 (resolve_changes_cache_only_on_success counter_rand first_char no_retry
                  no_nodes "3,01" LookupFn_new world0 _ _ _ _ Hcall) _ eq_refl).
Defined.

(** Three handles acquired when the sequencer is at its last value: the
    identifiers are [2^64 - 1], 0 and 1. *)
Lemma acquired_ids_never_repeat_witness :
  let wfs := Mount.mkWFS (2 ^ 64 - 1) Mount.NewDirectoryHandleToInode [1] ["a"] in
  let calls :=
    [Mount.call_Acquire; Mount.call_Get 9; Mount.call_Acquire;
     Mount.call_Release 0; Mount.call_Acquire] in
  0 <= Mount.nextFh wfs < 2 ^ 64
  /\ Z.of_nat (length (Mount.run_calls calls wfs).1) <= 2 ^ 64
  /\ (Mount.run_calls calls wfs).1 = [2 ^ 64 - 1; 0; 1]
  /\ NoDup (Mount.run_calls calls wfs).1.
Proof.
  cbv zeta.
  match goal with
  | |- ?A /\ ?B /\ _ =>
      assert (Hrange : A) by (vm_compute; split; [discriminate|reflexivity]);
      assert (Hcount : B) by (vm_compute; discriminate)
  end.
  split; [exact Hrange|]. split; [exact Hcount|]. split; [vm_compute; reflexivity|].
  exact (acquired_ids_never_repeat _ _ Hrange Hcount).
Defined.

(** A directory with the entries [a], [b] and [c], opened and read into an
    output that holds three entries: [.], [..] and [a] go in, [b] does not;
    four entries were counted, fewer than the [Length] of the request, and
    the handle is finished: the next read lists nothing. *)
Lemma finished_handle_lists_nothing_witness :
  let wfs0 :=
    (Mount.demo_OpenDir (Mount.mkOpenIn 1) (Mount.mkOpenOut 0 0) Mount.demo_wfs).2 in
  exists out1 wfs1,
    Mount.demo_doReadDirectory 3 (Mount.mkReadIn 1 80 5 0) [] false wfs0
      = (Mount.OK, out1, wfs1)
    /\ map Mount.Name out1 = ["."; ".."; "a"]
    /\ Mount.dir2inode wfs1 !! 5 = Some (Mount.mkDirectoryHandle true 4 "a")
    /\ Mount.demo_doReadDirectory 3 (Mount.mkReadIn 1 80 5 3) [] false wfs1
       = (Mount.OK, [], wfs1).
Proof.
  cbv zeta. eexists _, _.
  match goal with
  | |- ?A /\ ?B /\ ?D /\ _ =>
      assert (Hread : A) by (vm_compute; reflexivity);
      assert (Hout : B) by reflexivity;
      assert (Hfound : D) by (vm_compute; reflexivity)
  end.
  split; [exact Hread|]. split; [exact Hout|]. split; [exact Hfound|].
  destruct (finished_handle_lists_nothing
              Mount.demo_GetPath Mount.demo_GetInode Mount.demo_DirAndName
              Mount.demo_Child Mount.demo_toSystemMode
              (fun name : string => name) (fun _ : string => 0)
              (Mount.demo_Add 3) (Mount.demo_Add 3) Mount.demo_outputFilerEntry
              Mount.demo_EnsureVisited Mount.demo_ListDirectoryEntries
              _ _ _ _ _ _ Hread) as (dh1 & Hdh1 & _ & Hafter).
  cbn [Mount.Fh] in Hdh1, Hafter.
  rewrite Hfound in Hdh1. injection Hdh1 as <-.
  exact (Hafter eq_refl (Mount.mkReadIn 1 80 5 3) [] false eq_refl).
Defined.

(** The read of [0, 10) by the reader of the example. *)
Lemma read_keeps_views_size_and_locations_witness :
  exists r c' w',
    doReadAt counter_rand whole_id no_retry two_nodes wire_a
      (replicate 10 byte_b) 0 gap_reader world0 = Returns (r, c', w')
    /\ chunkViews c' = chunkViews gap_reader /\ fileSize c' = fileSize gap_reader
    /\ (forall vid l, lookupFileId_state gap_reader !! vid = Some l ->
        lookupFileId_state c' !! vid = Some l)
    /\ (chunkCache gap_reader = None <-> chunkCache c' = None).
Proof.
  eexists _, _, _.
  match goal with
  | |- ?A /\ _ => assert (Hread : A) by (vm_compute; reflexivity)
  end.
  split; [exact Hread|].
  exact (read_keeps_views_size_and_locations counter_rand whole_id no_retry two_nodes
           wire_a gap_reader world0 (replicate 10 byte_b) 0 _ _ _ Hread).
Defined.


(** The read of [90, 160) when the wire answers 50 bytes for the first
    view, of 100. *)
Lemma read_panics_only_on_short_chunk_witness :
  exists why,
    window_in_range (replicate 70 byte_b) 90
    /\ reader_in_range gap_reader
    /\ chunkCache gap_reader <> None
    /\ doReadAt counter_rand whole_id no_retry two_nodes wire_short
         (replicate 70 byte_b) 90 gap_reader world0 = Panics why
    /\ exists chunk buffer_len,
         why = SrcSliceOutOfRange chunk buffer_len
         /\ In chunk (chunkViews gap_reader)
         /\ buffer_len < Offset chunk + Size chunk.
Proof.
  eexists.
  assert (Hw : window_in_range (replicate 70 byte_b) 90)
    by (vm_compute; split; discriminate).
  assert (Hcache : chunkCache gap_reader <> None) by discriminate.
  split; [exact Hw|]. split; [exact gap_reader_in_range|]. split; [exact Hcache|].
  match goal with
  | |- ?A /\ _ => assert (Hread : A) by (vm_compute; reflexivity)
  end.
  split; [exact Hread|].
  exact (read_panics_only_on_short_chunk counter_rand whole_id no_retry two_nodes
           wire_short counter_rand_in_range gap_reader world0 (replicate 70 byte_b) 90 _
           Hw gap_reader_in_range Hcache Hread).
Defined.
